(** * loop_sampler.py: the control-state engine of the curses OSC controller

    A shallow embedding of [src/curses-sc-test/loop_sampler.py] and the
    properties of its state engine: the bounded message log, the ADSR
    parameter store, the loop window, the voice tracker, the keyboard
    toggle translator and the key dispatch of [SamplerTUI.run].

    Modelling conventions.
    - A Python [float] is a rational number [Q]: comparisons, [max], [min]
      and [abs] are exact on floats, and [+], [-], [*], [/] are taken
      without rounding.  NaN and the infinities are not represented.
      Where rounding decides, the loop window is given a second time on
      binary64 numbers ([LoopParameters64]), each operation rounded as
      Python rounds it.
    - A Python [int] is [Z]; a [dict] is a [gmap]; the [OrderedDict] with
      [None] values of the voice tracker is the list of its keys, oldest
      first.
    - A method that mutates [self] is a function returning the new object;
      the methods of [SamplerTUI] live in a state monad over the whole
      object that can also raise.
    - The network and the wall clock are oracles carried in the state: the
      k-th [send_message] succeeds or raises [OSError] as the oracle says. *)

From Stdlib Require Import ZArith QArith Qabs Qround Lia Lqa Ascii String.
From Stdlib Require PrimFloat FloatOps SpecFloat.
From stdpp Require Import base gmap strings list sorting.

(** ** Python builtins on floats *)

Definition Qltb (x y : Q) : bool :=
  match (x ?= y)%Q with Lt => true | _ => false end.

(** [max(a, b)] keeps [a] unless [b > a]; [min(a, b)] keeps [a] unless
    [b < a]. *)
Definition py_max (a b : Q) : Q := if Qltb a b then b else a.
Definition py_min (a b : Q) : Q := if Qltb b a then b else a.
Definition py_abs (a : Q) : Q := Qabs a.

Definition ord (c : ascii) : Z := Z.of_N (N_of_ascii c).

(** [int(round(x))]: the nearest integer, a tie going to the even one. *)
Definition py_round (x : Q) : Z :=
  let f := Qfloor x in
  let r := (x - inject_Z f)%Q in
  if Qltb r 0.5 then f
  else if Qltb 0.5 r then (f + 1)%Z
  else if Z.even f then f else (f + 1)%Z.

(** [l[i] = x] on a list: an index from [-len(l)] to [len(l) - 1] is
    accepted, a negative one counting from the end; [None] stands for
    [IndexError]. *)
Definition py_setitem {A : Type} (l : list A) (i : Z) (x : A) : option (list A) :=
  let n := Z.of_nat (length l) in
  if (0 <=? i)%Z && (i <? n)%Z then Some (<[Z.to_nat i := x]> l)
  else if (- n <=? i)%Z && (i <? 0)%Z then Some (<[Z.to_nat (n + i) := x]> l)
  else None.

(** [range(a, b)] *)
Definition py_range (a b : Z) : list Z :=
  map (λ k, (a + Z.of_nat k)%Z) (seq 0 (Z.to_nat (b - a))).

(** Exceptions the modelled code can raise, and the result of a call. *)
Inductive Exn : Type :=
| OSError (err : string)
| KeyError (key : string)
| AttributeError (name : string).

Inductive Outcome (A : Type) : Type :=
| Return (a : A)
| Raise (e : Exn).
Arguments Return {A} a.
Arguments Raise {A} e.

(** Values placed in an OSC payload or substituted in a log line. *)
Inductive Arg : Type :=
| AStr (s : string)
| AInt (z : Z)
| AFloat (q : Q).

(** An f-string: the literal template of the source with the values of
    its fields, in order.  The digits a float is printed with are not
    modelled. *)
Record Text : Type := fmt { template : string; fields : list Arg }.

Definition OSC_NOTE_ON : string := "/note_on".
Definition OSC_NOTE_OFF : string := "/note_off".
Definition OSC_PARAM : string := "/param".
Definition OSC_LOOP : string := "/loopSampler/loop".

(** ** MessageLog *)

Module MessageLog.

Record t : Type := mk {
  max_entries : Z;
  entries : list (string * Text)
}.

(** [MessageLog()] *)
Definition default : t := mk 10 [].

(** [push]: the entry is the pair of the time stamp and the text. *)
Definition push (timestamp : string) (text : Text) (self : t) : t :=
  let appended := entries self ++ [(timestamp, text)] in
  mk (max_entries self)
     (if (max_entries self <? Z.of_nat (length appended))%Z
      then drop 1 appended else appended).

(** A line of the rendered log: an entry, or a plain string. *)
Inductive Line : Type :=
| Entry (timestamp : string) (text : Text)
| Plain (s : string).

(** [rendered]: [self.entries[::-1]], or the placeholder for no entry. *)
Definition rendered (self : t) : list Line :=
  match entries self with
  | [] => [Plain "(no events yet)"]
  | _ => reverse (map (λ e, Entry (fst e) (snd e)) (entries self))
  end.

End MessageLog.

(** ** ADSR *)

Module ADSRRange.

Record t : Type := mk { minimum : Q; maximum : Q; step : Q }.

End ADSRRange.

Module ADSR.

Record t : Type := mk {
  attack : Q;
  decay : Q;
  sustain : Q;
  release : Q;
  ranges : gmap string ADSRRange.t
}.

Definition default_ranges : gmap string ADSRRange.t :=
  <["attack" := ADSRRange.mk 0.001 2.0 0.01]>
  (<["decay" := ADSRRange.mk 0.001 4.0 0.02]>
  (<["sustain" := ADSRRange.mk 0.0 1.0 0.02]>
  (<["release" := ADSRRange.mk 0.005 8.0 0.05]> ∅))).

Definition __post_init__ (self : t) : t :=
  if (size (ranges self) =? 0)%nat
  then mk (attack self) (decay self) (sustain self) (release self) default_ranges
  else self.

(** [ADSR()] *)
Definition default : t := __post_init__ (mk 0.01 0.1 0.7 0.5 ∅).

(** [getattr(self, name)] for the four float attributes; any other name
    either is no attribute or holds no float, and the caller's arithmetic
    raises. *)
Definition getattr (self : t) (name : string) : Outcome Q :=
  if String.eqb name "attack" then Return (attack self)
  else if String.eqb name "decay" then Return (decay self)
  else if String.eqb name "sustain" then Return (sustain self)
  else if String.eqb name "release" then Return (release self)
  else Raise (AttributeError name).

(** [setattr(self, name, value)], reached only after [getattr] returned. *)
Definition setattr (self : t) (name : string) (value : Q) : t :=
  if String.eqb name "attack"
  then mk value (decay self) (sustain self) (release self) (ranges self)
  else if String.eqb name "decay"
  then mk (attack self) value (sustain self) (release self) (ranges self)
  else if String.eqb name "sustain"
  then mk (attack self) (decay self) value (release self) (ranges self)
  else if String.eqb name "release"
  then mk (attack self) (decay self) (sustain self) value (ranges self)
  else self.

Definition get (self : t) (name : string) : Outcome Q := getattr self name.

Definition adjust (self : t) (name : string) (direction : Z) (coarse : bool)
  : Outcome (bool * t) :=
  match ranges self !! name with
  | None => Raise (KeyError name)
  | Some rng =>
    let step := (ADSRRange.step rng * (if coarse then 5 else 1))%Q in
    match getattr self name with
    | Raise e => Raise e
    | Return current =>
      let new_value := (current + inject_Z direction * step)%Q in
      let new_value :=
        py_max (ADSRRange.minimum rng) (py_min (ADSRRange.maximum rng) new_value) in
      if Qltb (py_abs (new_value - current)) 1e-6
      then Return (false, self)
      else Return (true, setattr self name new_value)
    end
  end.

Definition items (self : t) : list (string * Q) :=
  [("attack", attack self); ("decay", decay self);
   ("sustain", sustain self); ("release", release self)].

(** [set]: the value clamped to the range of [name], assigned with
    [setattr].  For a key of [ranges] that is none of the four fields
    Python would create a new attribute, which this record cannot hold:
    the object comes back as it is. *)
Definition set (self : t) (name : string) (value : Q) : Outcome t :=
  match ranges self !! name with
  | None => Raise (KeyError name)
  | Some rng =>
    let clamped :=
      py_max (ADSRRange.minimum rng) (py_min (ADSRRange.maximum rng) value) in
    Return (setattr self name clamped)
  end.

End ADSR.

(** ** LoopParameters *)

Module LoopParameters.

Record t : Type := mk {
  start : Q;
  end_ : Q;
  min_span : Q;
  step : Q;
  coarse_step : Q;
  revision : Z
}.

Definition _clamp (value : Q) : Q := py_max 0.0 (py_min 1.0 value).

Definition set_start (v : Q) (self : t) : t :=
  mk v (end_ self) (min_span self) (step self) (coarse_step self) (revision self).
Definition set_end (v : Q) (self : t) : t :=
  mk (start self) v (min_span self) (step self) (coarse_step self) (revision self).
Definition bump_revision (self : t) : t :=
  mk (start self) (end_ self) (min_span self) (step self) (coarse_step self)
     (revision self + 1).

Definition __post_init__ (self : t) : t :=
  let self := set_start (_clamp (start self)) self in
  let self := set_end (_clamp (end_ self)) self in
  if Qltb (end_ self - start self) (min_span self)
  then
    let self := set_end (py_min 1.0 (start self + min_span self)) self in
    set_start (py_max 0.0 (end_ self - min_span self)) self
  else self.

(** [LoopParameters(start=..., end=..., step=..., coarse_step=...,
    min_span=...)]: the dataclass constructor, [revision] at its default. *)
Definition new (start end_ min_span step coarse_step : Q) : t :=
  __post_init__ (mk start end_ min_span step coarse_step 0).

Definition adjust_start (delta : Q) (self : t) : bool * t :=
  let new_start := _clamp (start self + delta) in
  let max_start := (end_ self - min_span self)%Q in
  let new_start := if Qltb max_start new_start then max_start else new_start in
  if Qltb (py_abs (new_start - start self)) 1e-6
  then (false, self)
  else (true, bump_revision (set_start new_start self)).

Definition adjust_end (delta : Q) (self : t) : bool * t :=
  let new_end := _clamp (end_ self + delta) in
  let min_end := (start self + min_span self)%Q in
  let new_end := if Qltb new_end min_end then min_end else new_end in
  if Qltb (py_abs (new_end - end_ self)) 1e-6
  then (false, self)
  else (true, bump_revision (set_end new_end self)).

Definition payload (self : t) : list Arg :=
  [AFloat (start self); AFloat (end_ self); AFloat (inject_Z (revision self))].

End LoopParameters.

(** ** LoopParameters on binary64 numbers

    The same class with the floats as Python has them: IEEE 754 binary64
    numbers, each [+] and [-] rounded to nearest, ties to even.  [max],
    [min], [abs] and the comparisons do not round. *)

Module LoopParameters64.
Import PrimFloat.
#[local] Open Scope float_scope.
#[local] Set Warnings "-inexact-float".

Record t : Type := mk {
  start : float;
  end_ : float;
  min_span : float;
  step : float;
  coarse_step : float;
  revision : Z
}.

Definition py_max (a b : float) : float := if ltb a b then b else a.
Definition py_min (a b : float) : float := if ltb b a then b else a.

Definition _clamp (value : float) : float := py_max 0.0 (py_min 1.0 value).

Definition set_start (v : float) (self : t) : t :=
  mk v (end_ self) (min_span self) (step self) (coarse_step self) (revision self).
Definition set_end (v : float) (self : t) : t :=
  mk (start self) v (min_span self) (step self) (coarse_step self) (revision self).
Definition bump_revision (self : t) : t :=
  mk (start self) (end_ self) (min_span self) (step self) (coarse_step self)
     (revision self + 1).

Definition __post_init__ (self : t) : t :=
  let self := set_start (_clamp (start self)) self in
  let self := set_end (_clamp (end_ self)) self in
  if ltb (end_ self - start self) (min_span self)
  then
    let self := set_end (py_min 1.0 (start self + min_span self)) self in
    set_start (py_max 0.0 (end_ self - min_span self)) self
  else self.

Definition new (start end_ min_span step coarse_step : float) : t :=
  __post_init__ (mk start end_ min_span step coarse_step 0).

Definition adjust_start (delta : float) (self : t) : bool * t :=
  let new_start := _clamp (start self + delta) in
  let max_start := end_ self - min_span self in
  let new_start := if ltb max_start new_start then max_start else new_start in
  if ltb (abs (new_start - start self)) 1e-6
  then (false, self)
  else (true, bump_revision (set_start new_start self)).

Definition adjust_end (delta : float) (self : t) : bool * t :=
  let new_end := _clamp (end_ self + delta) in
  let min_end := start self + min_span self in
  let new_end := if ltb new_end min_end then min_end else new_end in
  if ltb (abs (new_end - end_ self)) 1e-6
  then (false, self)
  else (true, bump_revision (set_end new_end self)).

End LoopParameters64.

(** ** VoiceTracker *)

Module VoiceTracker.

(** [_voices] is an [OrderedDict[int, None]]: the list of its keys in
    iteration order.  [move_to_end] takes the key out and puts it back
    last, assigning a new key appends it, [pop(note, None)] takes it out. *)
Record t : Type := mk { limit : Z; _voices : list Z }.

Definition __init__ (limit : Z) : t := mk limit [].

Definition note_on (note : Z) (self : t) : t :=
  if bool_decide (note ∈ _voices self)
  then mk (limit self) (filter (λ k, k ≠ note) (_voices self) ++ [note])
  else mk (limit self) (_voices self ++ [note]).

Definition note_off (note : Z) (self : t) : t :=
  mk (limit self) (filter (λ k, k ≠ note) (_voices self)).

Definition count (self : t) : Z := Z.of_nat (length (_voices self)).

Definition active_notes (self : t) : list Z := _voices self.

End VoiceTracker.

(** ** MidiInput, as far as the control loop uses it *)

Module MidiInput.

(** A message of the MIDI backend. *)
Record Message : Type := msg { type : string; note : Z; velocity : Z }.

(** An opened port.  What [iter_pending] returns is an input of each
    tick; resolving and opening the port happen before the loop. *)
Record t : Type := mk { name : string; closed : bool }.

Definition close (self : t) : t := mk (name self) true.

Definition DEFAULT_MIDI_PATTERNS : list string :=
  ["arturia minilab mkii:arturia minilab mkii midi 1";
   "arturia minilab mkii midi 1";
   "arturia minilab"].

(** [needle in hay] on strings: [needle] starts at some position of
    [hay]. *)
Fixpoint contains (needle hay : string) : bool :=
  String.prefix needle hay
  || match hay with
     | EmptyString => false
     | String _ rest => contains needle rest
     end.

(** [for x in xs: (the first result of the body, if any)] *)
Fixpoint first_result {A B : Type} (body : A → option B) (xs : list A) : option B :=
  match xs with
  | [] => None
  | x :: rest =>
    match body x with
    | Some y => Some y
    | None => first_result body rest
    end
  end.

(** [_resolve_port_name(requested, mido)], on the list [names] that
    [mido.get_input_names()] returns.  [lower] is [str.lower]. *)
Definition _resolve_port_name (lower : string → string) (requested : string)
    (names : list string) : option string :=
  if String.eqb (lower requested) "auto" then
    match first_result
            (λ pattern,
               let target := lower pattern in
               List.find (λ name, contains target (lower name)) names)
            DEFAULT_MIDI_PATTERNS with
    | Some name => Some name
    | None => head names
    end
  else if bool_decide (requested ∈ names) then Some requested
  else
    let requested_lower := lower requested in
    match List.find (λ name, String.eqb (lower name) requested_lower) names with
    | Some name => Some name
    | None => List.find (λ name, contains requested_lower (lower name)) names
    end.

End MidiInput.

(** ** KeyboardNoteMapper *)

Module KeyboardNoteMapper.

Definition KEY_MAP : gmap Z Z :=
  list_to_map
    [(ord "z", 60); (ord "s", 61); (ord "x", 62); (ord "d", 63);
     (ord "c", 64); (ord "v", 65); (ord "g", 66); (ord "b", 67);
     (ord "h", 68); (ord "n", 69); (ord "j", 70); (ord "m", 71);
     (ord ",", 72)]%Z.

Record t : Type := mk { active : gmap Z bool }.

Definition __init__ : t := mk ∅.

Definition translate (key_code : Z) (self : t) : option (Z * bool) * t :=
  match KEY_MAP !! key_code with
  | None => (None, self)
  | Some note =>
    let state := default false (active self !! note) in
    (Some (note, negb state), mk (<[note := negb state]> (active self)))
  end.

End KeyboardNoteMapper.

(** ** The OSC client and the wall clock *)

Module SimpleUDPClient.

(** [network k] is what happens to the k-th call of [send_message]:
    [None] when the datagram leaves, [Some err] when the socket raises
    [OSError(err)].  [sent] records every call with its outcome. *)
Record t : Type := mk {
  network : nat → option string;
  sent : list (string * list Arg * option string)
}.

Definition send_message (address : string) (value : list Arg) (self : t)
  : Outcome unit * t :=
  let outcome := network self (length (sent self)) in
  let self := mk (network self) (sent self ++ [(address, value, outcome)]) in
  match outcome with
  | Some err => (Raise (OSError err), self)
  | None => (Return tt, self)
  end.

End SimpleUDPClient.

Module Time.

(** [stamps k] is the result of the k-th [time.strftime("%H:%M:%S")]. *)
Record t : Type := mk { stamps : nat → string; reads : nat }.

Definition strftime (self : t) : string * t :=
  (stamps self (reads self), mk (stamps self) (S (reads self))).

End Time.

(** Key codes of curses that the bindings name. *)
Definition KEY_DOWN : Z := 258.
Definition KEY_UP : Z := 259.
Definition KEY_LEFT : Z := 260.
Definition KEY_RIGHT : Z := 261.

(** ** SamplerTUI *)

Module SamplerTUI.

(** The fields of the object that the engine reads or writes.  [host],
    [port] and [stdscr] only feed the display. *)
Record t : Type := mk {
  client : SimpleUDPClient.t;
  clock : Time.t;
  sample_key : string;
  voice_limit : Z;
  default_velocity : Q;
  adsr : ADSR.t;
  loop_params : LoopParameters.t;
  msg_log : MessageLog.t;
  voice_tracker : VoiceTracker.t;
  keyboard_mapper : KeyboardNoteMapper.t;
  midi : option MidiInput.t
}.

Definition set_client (v : SimpleUDPClient.t) (s : t) : t :=
  mk v (clock s) (sample_key s) (voice_limit s) (default_velocity s) (adsr s)
     (loop_params s) (msg_log s) (voice_tracker s) (keyboard_mapper s) (midi s).
Definition set_clock (v : Time.t) (s : t) : t :=
  mk (client s) v (sample_key s) (voice_limit s) (default_velocity s) (adsr s)
     (loop_params s) (msg_log s) (voice_tracker s) (keyboard_mapper s) (midi s).
Definition set_adsr (v : ADSR.t) (s : t) : t :=
  mk (client s) (clock s) (sample_key s) (voice_limit s) (default_velocity s) v
     (loop_params s) (msg_log s) (voice_tracker s) (keyboard_mapper s) (midi s).
Definition set_loop_params (v : LoopParameters.t) (s : t) : t :=
  mk (client s) (clock s) (sample_key s) (voice_limit s) (default_velocity s)
     (adsr s) v (msg_log s) (voice_tracker s) (keyboard_mapper s) (midi s).
Definition set_msg_log (v : MessageLog.t) (s : t) : t :=
  mk (client s) (clock s) (sample_key s) (voice_limit s) (default_velocity s)
     (adsr s) (loop_params s) v (voice_tracker s) (keyboard_mapper s) (midi s).
Definition set_voice_tracker (v : VoiceTracker.t) (s : t) : t :=
  mk (client s) (clock s) (sample_key s) (voice_limit s) (default_velocity s)
     (adsr s) (loop_params s) (msg_log s) v (keyboard_mapper s) (midi s).
Definition set_keyboard_mapper (v : KeyboardNoteMapper.t) (s : t) : t :=
  mk (client s) (clock s) (sample_key s) (voice_limit s) (default_velocity s)
     (adsr s) (loop_params s) (msg_log s) (voice_tracker s) v (midi s).
Definition set_midi (v : option MidiInput.t) (s : t) : t :=
  mk (client s) (clock s) (sample_key s) (voice_limit s) (default_velocity s)
     (adsr s) (loop_params s) (msg_log s) (voice_tracker s) (keyboard_mapper s) v.

(** A method of the object: it runs on the current object, leaves the
    object as mutated so far, and returns or raises. *)
Definition M (A : Type) : Type := t → Outcome A * t.

Definition ret {A : Type} (a : A) : M A := λ s, (Return a, s).

Definition bind {A B : Type} (m : M A) (k : A → M B) : M B :=
  λ s, match m s with
       | (Return a, s') => k a s'
       | (Raise e, s') => (Raise e, s')
       end.

Declare Scope tui_scope.
Delimit Scope tui_scope with tui.
Notation "x ← y ; z" := (bind y (λ x, z))
  (at level 20, y at level 100, z at level 200, only parsing) : tui_scope.
Notation "x ;; z" := (bind x (λ _, z))
  (at level 100, z at level 200, only parsing, right associativity) : tui_scope.
Local Open Scope tui_scope.

Definition get : M t := λ s, (Return s, s).
Definition modify (f : t → t) : M unit := λ s, (Return tt, f s).

(** [try: body / except OSError as err: handler(err)] *)
Definition try_except_OSError {A : Type} (body : M A) (handler : string → M A)
  : M A :=
  λ s, match body s with
       | (Raise (OSError err), s') => handler err s'
       | r => r
       end.

(** [for x in xs: body(x)] *)
Fixpoint for_each {A : Type} (xs : list A) (body : A → M unit) : M unit :=
  match xs with
  | [] => ret tt
  | x :: rest => body x ;; for_each rest body
  end.

(** [self.client.send_message(address, payload)] *)
Definition send_message (address : string) (payload : list Arg) : M unit :=
  λ s, let (r, c) := SimpleUDPClient.send_message address payload (client s) in
       (r, set_client c s).

(** [self.msg_log.push(text)] *)
Definition push (text : Text) : M unit :=
  λ s, let (timestamp, c) := Time.strftime (clock s) in
       (Return tt,
        set_msg_log (MessageLog.push timestamp text (msg_log s)) (set_clock c s)).

(** The display is written, the object is not.  The screen is no part
    of the model: what drawing itself can raise (a curses error on a
    screen too small, the division by a voice limit of 0) is not followed,
    a pass is taken as far as its drawing returns. *)
Definition _draw : M unit := ret tt.

(** The body after [try/except] runs only when the handler did not
    return from the method: the protected call yields [true] on success
    and the handler, after logging, [false].  The two readings of the
    performance counter in [_send_note_on] only feed the elapsed time
    printed in its log line and are left out. *)
Definition _send_note_on (note : Z) (velocity : Q) (source : string) : M unit :=
  self ← get;
  let payload := [AStr (sample_key self); AInt note; AFloat velocity] in
  delivered ← try_except_OSError
    (send_message OSC_NOTE_ON payload ;; ret true)
    (λ err, push (fmt "Failed to send note_on: {err}" [AStr err]) ;; ret false);
  if delivered : bool then
    modify (λ s, set_voice_tracker (VoiceTracker.note_on note (voice_tracker s)) s) ;;
    push (fmt "{source} note_on {note} vel {velocity:.2f} (OSC {elapsed_ms:.1f} ms)"
              [AStr source; AInt note; AFloat velocity])
  else ret tt.

Definition _send_note_off (note : Z) (source : string) : M unit :=
  self ← get;
  let payload := [AStr (sample_key self); AInt note] in
  delivered ← try_except_OSError
    (send_message OSC_NOTE_OFF payload ;; ret true)
    (λ err, push (fmt "Failed to send note_off: {err}" [AStr err]) ;; ret false);
  if delivered : bool then
    modify (λ s, set_voice_tracker (VoiceTracker.note_off note (voice_tracker s)) s) ;;
    push (fmt "{source} note_off {note}" [AStr source; AInt note])
  else ret tt.

Definition _send_param_update (param : string) (value : Q) : M unit :=
  let payload := [AStr param; AFloat value] in
  try_except_OSError
    (send_message OSC_PARAM payload)
    (λ err, push (fmt "Failed to send param update: {err}" [AStr err])).

Definition _send_initial_params : M unit :=
  self ← get;
  for_each (ADSR.items (adsr self)) (λ '(name, value), _send_param_update name value).

Definition _send_loop_update (reason : string) : M unit :=
  self ← get;
  let payload := LoopParameters.payload (loop_params self) in
  delivered ← try_except_OSError
    (send_message OSC_LOOP payload ;; ret true)
    (λ err, push (fmt "Failed to update loop: {err}" [AStr err]) ;; ret false);
  if delivered : bool then
    self ← get;
    push (fmt "Loop {0}: start {1:.3f}, end {2:.3f}"
              [AStr reason; AFloat (LoopParameters.start (loop_params self));
               AFloat (LoopParameters.end_ (loop_params self))])
  else ret tt.

Definition _panic_all_notes_off : M unit :=
  self ← get;
  let active := VoiceTracker.active_notes (voice_tracker self) in
  match active with
  | [] => push (fmt "PANIC: no active notes" [])
  | _ =>
    for_each active (λ note, _send_note_off note "PANIC") ;;
    push (fmt "PANIC: sent note_off for {len(active)} note(s)"
              [AInt (Z.of_nat (length active))])
  end.

(** [self._poll_midi()], on the messages [iter_pending] hands over. *)
Definition _poll_midi (pending : list MidiInput.Message) : M unit :=
  self ← get;
  match midi self with
  | None => ret tt
  | Some _ =>
    for_each pending (λ message,
      if String.eqb (MidiInput.type message) "note_on"
         && (0 <? MidiInput.velocity message)%Z
      then
        let velocity := (inject_Z (MidiInput.velocity message) / 127.0)%Q in
        _send_note_on (MidiInput.note message) velocity "MIDI"
      else if String.eqb (MidiInput.type message) "note_off"
              || (String.eqb (MidiInput.type message) "note_on"
                  && (MidiInput.velocity message =? 0)%Z)
      then _send_note_off (MidiInput.note message) "MIDI"
      else ret tt)
  end.

(** [self.adsr.adjust(name, direction, coarse=coarse)] and
    [self.adsr.get(name)] on the object's [adsr]. *)
Definition adsr_adjust (name : string) (direction : Z) (coarse : bool) : M bool :=
  λ s, match ADSR.adjust (adsr s) name direction coarse with
       | Return (changed, a) => (Return changed, set_adsr a s)
       | Raise e => (Raise e, s)
       end.

Definition adsr_get (name : string) : M Q :=
  λ s, (ADSR.get (adsr s) name, s).

Definition adsr_key_mapping : gmap Z (string * Z * bool) :=
  list_to_map
    [(ord "t", ("attack", -1, false)); (ord "T", ("attack", 1, true));
     (ord "y", ("decay", -1, false)); (ord "Y", ("decay", 1, true));
     (ord "u", ("sustain", -1, false)); (ord "U", ("sustain", 1, true));
     (ord "i", ("release", -1, false)); (ord "I", ("release", 1, true))]%Z.

Definition _handle_adsr_keys (key : Z) : M bool :=
  match adsr_key_mapping !! key with
  | None => ret false
  | Some (name, direction, coarse) =>
    changed ← adsr_adjust name direction coarse;
    if negb changed then ret true
    else
      value ← adsr_get name;
      _send_param_update name value ;;
      push (fmt "Param {name} -> {value:.3f}" [AStr name; AFloat value]) ;;
      ret true
  end.

Definition _adjust_loop_start (delta : Q) : M bool :=
  self ← get;
  let (changed, lp) := LoopParameters.adjust_start delta (loop_params self) in
  if changed then
    modify (set_loop_params lp) ;; _send_loop_update "start" ;; ret true
  else ret false.

Definition _adjust_loop_end (delta : Q) : M bool :=
  self ← get;
  let (changed, lp) := LoopParameters.adjust_end delta (loop_params self) in
  if changed then
    modify (set_loop_params lp) ;; _send_loop_update "end" ;; ret true
  else ret false.

Definition _handle_loop_keys (key : Z) : M bool :=
  self ← get;
  let step := LoopParameters.step (loop_params self) in
  let coarse := LoopParameters.coarse_step (loop_params self) in
  if (key =? ord "a")%Z || (key =? KEY_LEFT)%Z then _adjust_loop_start (- step)
  else if (key =? ord "A")%Z then _adjust_loop_start (- coarse)
  else if (key =? ord "d")%Z || (key =? KEY_RIGHT)%Z then _adjust_loop_start step
  else if (key =? ord "D")%Z then _adjust_loop_start coarse
  else if (key =? ord "j")%Z || (key =? KEY_DOWN)%Z then _adjust_loop_end (- step)
  else if (key =? ord "J")%Z then _adjust_loop_end (- coarse)
  else if (key =? ord "l")%Z || (key =? KEY_UP)%Z then _adjust_loop_end step
  else if (key =? ord "L")%Z then _adjust_loop_end coarse
  else ret false.

(** [self.keyboard_mapper.translate(key)] on the object's mapper. *)
Definition keyboard_translate (key : Z) : M (option (Z * bool)) :=
  λ s, let (translation, m) := KeyboardNoteMapper.translate key (keyboard_mapper s) in
       (Return translation, set_keyboard_mapper m s).

Definition _handle_keyboard_note (key : Z) : M bool :=
  translation ← keyboard_translate key;
  match translation with
  | None => ret false
  | Some (note, is_on) =>
    self ← get;
    (if is_on : bool
     then _send_note_on note (default_velocity self) "KEY"
     else _send_note_off note "KEY") ;;
    ret true
  end.

(** [SamplerTUI(...)] with the MIDI port already opened (or absent):
    the fields are set, then the four parameters and the loop window are
    sent. *)
Definition __init__ (client : SimpleUDPClient.t) (clock : Time.t)
    (sample_key : string) (voice_limit : Z) (default_velocity : Q)
    (adsr : ADSR.t) (loop_params : LoopParameters.t)
    (midi : option MidiInput.t) : Outcome unit * t :=
  let self :=
    mk client clock sample_key voice_limit
       (py_max 0.0 (py_min 1.0 default_velocity))
       adsr loop_params MessageLog.default
       (VoiceTracker.__init__ voice_limit) KeyboardNoteMapper.__init__ midi in
  (_send_initial_params ;; _send_loop_update "init") self.

(** One pass through the body of [while True]: [pending] is what the
    MIDI port holds and [key] what [getch] returns ([-1]: no key). *)
Inductive Flow : Type := Continue | Break.

Definition iteration (pending : list MidiInput.Message) (key : Z) : M Flow :=
  _poll_midi pending ;;
  _draw ;;
  if (key =? -1)%Z then ret Continue
  else if (key =? ord "q")%Z || (key =? ord "Q")%Z then
    push (fmt "Quitting…" []) ;; _draw ;; ret Break
  else if (key =? ord ";")%Z then
    _panic_all_notes_off ;; ret Continue
  else
    handled ← _handle_loop_keys key;
    if handled : bool then ret Continue
    else
      handled ← _handle_adsr_keys key;
      if handled : bool then ret Continue
      else
        _handle_keyboard_note key ;; ret Continue.

(** The loop over the inputs of successive passes; it ends at [Break], at
    an exception, or when the recorded inputs are used up. *)
Fixpoint loop (inputs : list (list MidiInput.Message * Z)) : M unit :=
  match inputs with
  | [] => ret tt
  | (pending, key) :: rest =>
    flow ← iteration pending key;
    match flow with
    | Break => ret tt
    | Continue => loop rest
    end
  end.

(** [try: body / finally: cleanup] *)
Definition try_finally {A : Type} (body : M A) (cleanup : M unit) : M A :=
  λ s, match body s with
       | (r, s') =>
         match cleanup s' with
         | (Return _, s'') => (r, s'')
         | (Raise e, s'') => (Raise e, s'')
         end
       end.

Definition run (inputs : list (list MidiInput.Message * Z)) : M unit :=
  push (fmt "Ready. Use MIDI keyboard or Z-M row for notes. T/Y/U/I adjust ADSR." []) ;;
  try_finally (loop inputs)
    (modify (λ s, set_midi (MidiInput.close <$> midi s) s)).

(** [_loop_bar(width)]: the characters between the brackets are built
    in a list; [None] stands for the [IndexError] of an assignment.
    [to_index x n] stands for [int(round(x * n))], a product and a
    rounding of binary64 numbers: it is a parameter, and the rest of the
    method works on integers. *)
Definition _loop_bar (to_index : Q → Z → Z) (width : Z) (self : t) : option string :=
  let usable := Z.max 20 width in
  let segments := (usable - 2)%Z in
  let start_idx := to_index (LoopParameters.start (loop_params self)) segments in
  let end_idx := to_index (LoopParameters.end_ (loop_params self)) segments in
  let end_idx :=
    if (end_idx <=? start_idx)%Z then Z.min segments (start_idx + 1) else end_idx in
  let end_idx := if (segments <? end_idx)%Z then segments else end_idx in
  let chars := replicate (Z.to_nat (segments + 1)) "-"%char in
  match foldl (λ acc idx, match acc with
                          | Some l => py_setitem l idx "="%char
                          | None => None
                          end)
              (Some chars) (py_range start_idx end_idx) with
  | None => None
  | Some chars =>
    match py_setitem chars start_idx "|"%char with
    | None => None
    | Some chars =>
      match py_setitem chars end_idx "|"%char with
      | None => None
      | Some chars =>
        Some (String "[" (string_of_list_ascii (take (Z.to_nat (segments + 1)) chars)
                          ++ "]"))
      end
    end
  end.

End SamplerTUI.

(** * Vocabulary of the properties *)

Import SamplerTUI.

(** A method keeps a preorder [R] on objects when the object it leaves,
    returning or raising, is related to the one it started on. *)
Definition keeps_at (R : relation SamplerTUI.t) {A : Type} (m : M A)
    (s : SamplerTUI.t) : Prop :=
  R s (snd (m s)).

Definition keeps (R : relation SamplerTUI.t) {A : Type} (m : M A) : Prop :=
  ∀ s, keeps_at R m s.

(** ** The loop window *)

(** [0 <= start <= end <= 1] and [end - start >= min_span]. *)
Definition LoopInvariant (lp : LoopParameters.t) : Prop :=
  (0 <= LoopParameters.start lp)%Q
  ∧ (LoopParameters.start lp <= LoopParameters.end_ lp)%Q
  ∧ (LoopParameters.end_ lp <= 1)%Q
  ∧ (LoopParameters.min_span lp <= LoopParameters.end_ lp - LoopParameters.start lp)%Q.

(** [0 <= start <= end <= 1]. *)
Definition WindowOrdered (lp : LoopParameters.t) : Prop :=
  (0 <= LoopParameters.start lp)%Q
  ∧ (LoopParameters.start lp <= LoopParameters.end_ lp)%Q
  ∧ (LoopParameters.end_ lp <= 1)%Q.

(** A call of one of the two adjusting methods. *)
Inductive LoopCall : Type :=
| call_adjust_start (delta : Q)
| call_adjust_end (delta : Q).

Definition loop_call (c : LoopCall) (lp : LoopParameters.t) : bool * LoopParameters.t :=
  match c with
  | call_adjust_start delta => LoopParameters.adjust_start delta lp
  | call_adjust_end delta => LoopParameters.adjust_end delta lp
  end.


(** ** The loop window on binary64 numbers *)

Module Window64.
Import PrimFloat.
#[local] Open Scope float_scope.
#[local] Set Warnings "-inexact-float".

(** The rational number that a finite binary64 number is. *)
Definition value (x : float) : option Q :=
  match FloatOps.Prim2SF x with
  | SpecFloat.S754_zero _ => Some 0%Q
  | SpecFloat.S754_finite s m e =>
    Some ((if s then -1 else 1) * inject_Z (Z.pos m) * 2 ^ e)%Q
  | _ => None
  end.

(** [0 <= start <= end <= 1] and [end - start >= min_span], of the
    numbers that the three fields are. *)
Definition LoopInvariant (lp : LoopParameters64.t) : Prop :=
  ∃ s e m : Q,
    value (LoopParameters64.start lp) = Some s
    ∧ value (LoopParameters64.end_ lp) = Some e
    ∧ value (LoopParameters64.min_span lp) = Some m
    ∧ (0 <= s)%Q ∧ (s <= e)%Q ∧ (e <= 1)%Q ∧ (m <= e - s)%Q.








End Window64.

(** ** The ADSR store *)

(** The clamp of the specification: [x] brought back into [[lo, hi]]. *)
Definition clamp (x lo hi : Q) : Q :=
  if Qltb x lo then lo else if Qltb hi x then hi else x.

(** The value the specification gives an adjustment. *)
Definition adjust_target (current step : Q) (direction : Z) (coarse : bool)
    (lo hi : Q) : Q :=
  clamp (current + inject_Z direction * step * (if coarse then 5 else 1)) lo hi.

Definition param_names : list string := ["attack"; "decay"; "sustain"; "release"].

(** The stored value of [name] lies in the range [ranges] gives it. *)
Definition attr_in_range (a : ADSR.t) (name : string) : Prop :=
  match ADSR.ranges a !! name, ADSR.getattr a name with
  | Some rng, Return v =>
    (ADSRRange.minimum rng <= v)%Q ∧ (v <= ADSRRange.maximum rng)%Q
  | _, _ => False
  end.

Definition adsr_in_range (a : ADSR.t) : Prop := Forall (attr_in_range a) param_names.

(** Every range of the four parameters is present and not empty. *)
Definition ranges_well_formed (a : ADSR.t) : Prop :=
  Forall (λ name, match ADSR.ranges a !! name with
                  | Some rng => (ADSRRange.minimum rng <= ADSRRange.maximum rng)%Q
                  | None => False
                  end) param_names.

Record AdjustCall : Type := adjust_call {
  call_name : string;
  call_direction : Z;
  call_coarse : bool
}.

(** The store at the start and after each call of a sequence of [adjust]
    calls; a call that raises ends the sequence. *)
Fixpoint adsr_history (calls : list AdjustCall) (a : ADSR.t) : list ADSR.t :=
  a :: match calls with
       | [] => []
       | c :: rest =>
         match ADSR.adjust a (call_name c) (call_direction c) (call_coarse c) with
         | Return (_, a') => adsr_history rest a'
         | Raise _ => []
         end
       end.

(** ** Voices *)

Inductive VoiceCall : Type :=
| call_note_on (note : Z)
| call_note_off (note : Z).

Definition voice_call (vt : VoiceTracker.t) (c : VoiceCall) : VoiceTracker.t :=
  match c with
  | call_note_on note => VoiceTracker.note_on note vt
  | call_note_off note => VoiceTracker.note_off note vt
  end.

Definition voices_after (calls : list VoiceCall) (vt : VoiceTracker.t) : VoiceTracker.t :=
  foldl voice_call vt calls.

(** The reference semantics: a note is on from a [note_on] to the next
    [note_off] of that note.  The state maps each note that is on to the
    time (the index in the sequence) of its latest [note_on]. *)
Definition on_off (st : nat * gmap Z nat) (c : VoiceCall) : nat * gmap Z nat :=
  match c with
  | call_note_on note => (S (fst st), <[note := fst st]> (snd st))
  | call_note_off note => (S (fst st), delete note (snd st))
  end.

Definition on_since (calls : list VoiceCall) : gmap Z nat :=
  snd (foldl on_off (0%nat, ∅) calls).

(** The notes that are on after the calls. *)
Definition sounding (calls : list VoiceCall) : gset Z := dom (on_since calls).

(** [a] was last switched on before [b] was. *)
Definition older (m : gmap Z nat) (a b : Z) : Prop :=
  ∃ ta tb : nat, m !! a = Some ta ∧ m !! b = Some tb ∧ (ta < tb)%nat.

Definition tracks (l : list Z) (st : nat * gmap Z nat) : Prop :=
  NoDup l
  ∧ (∀ n, n ∈ l ↔ is_Some (snd st !! n))
  ∧ (∀ n t, snd st !! n = Some t → (t < fst st)%nat)
  ∧ StronglySorted (older (snd st)) l.

(** ** The controller *)

(** A part of the object is left as it was. *)
Definition unchanged {B : Type} (proj : SamplerTUI.t → B) : relation SamplerTUI.t :=
  λ s s', proj s' = proj s.

Definition any_message : SamplerTUI.t → string → list Arg → Prop := λ _ _ _, True.

(** An object as [curses_main] builds it with the default options, on a
    network that delivers everything. *)
Definition online : SimpleUDPClient.t := SimpleUDPClient.mk (λ _, None) [].
Definition noon : Time.t := Time.mk (λ _, "12:00:00") 0.
Definition default_loop : LoopParameters.t := LoopParameters.new 0.0 1.0 0.02 0.01 0.05.
Definition default_tui (client : SimpleUDPClient.t) : SamplerTUI.t :=
  snd (__init__ client noon "plasma" 8 0.6 ADSR.default default_loop None).

(** A sent message that, if it is a note-on, carries the sample key [k]
    and the velocity [v]. *)
Definition note_on_carries (v : Q) (k : string)
    (e : string * list Arg * option string) : Prop :=
  fst (fst e) = OSC_NOTE_ON → ∃ note : Z, snd (fst e) = [AStr k; AInt note; AFloat v].

(** On an object whose default velocity is [v] and sample key [k]: both
    stay, and every message sent meanwhile satisfies [note_on_carries]. *)
Definition sends_default_velocity (v : Q) (k : string) : relation SamplerTUI.t :=
  λ s s',
    default_velocity s = v → sample_key s = k →
    default_velocity s' = v ∧ sample_key s' = k
    ∧ ∃ new, SimpleUDPClient.sent (client s') = SimpleUDPClient.sent (client s) ++ new
             ∧ Forall (note_on_carries v k) new.

Definition message_with_default_velocity (v : Q) (k : string)
  : SamplerTUI.t → string → list Arg → Prop :=
  λ s address payload,
    default_velocity s = v → sample_key s = k →
    note_on_carries v k (address, payload, None).

Definition velocity_and_key (s : SamplerTUI.t) : Q * string :=
  (default_velocity s, sample_key s).

(** The time stamp the next log line takes and the fate of the next
    message. *)
Definition now (s : SamplerTUI.t) : string :=
  Time.stamps (clock s) (Time.reads (clock s)).

Definition next_outcome (s : SamplerTUI.t) : option string :=
  SimpleUDPClient.network (client s) (length (SimpleUDPClient.sent (client s))).

(** The log of [s'] is the log of [s] with one more line: the failure
    text with the error. *)
Definition failure_logged (template err : string) (s s' : SamplerTUI.t) : Prop :=
  msg_log s' = MessageLog.push (now s) (fmt template [AStr err]) (msg_log s).

(** The tracker, the parameters and the loop window of [s'] are those of
    [s]. *)
Definition same_local (s s' : SamplerTUI.t) : Prop :=
  voice_tracker s' = voice_tracker s
  ∧ adsr s' = adsr s
  ∧ loop_params s' = loop_params s.

(** A network on which every send fails. *)
Definition offline : SimpleUDPClient.t :=
  SimpleUDPClient.mk (λ _, Some "Network is unreachable") [].

(** The note-off calls of a panic over [notes], the first being call
    number [base] of the client, and the notes among them whose message
    is delivered. *)
Fixpoint note_off_sends (k : string) (network : nat → option string) (base : nat)
    (notes : list Z) : list (string * list Arg * option string) :=
  match notes with
  | [] => []
  | note :: rest =>
    (OSC_NOTE_OFF, [AStr k; AInt note], network base)
    :: note_off_sends k network (S base) rest
  end.

Fixpoint released (network : nat → option string) (base : nat) (notes : list Z)
  : list Z :=
  match notes with
  | [] => []
  | note :: rest =>
    match network base with
    | None => note :: released network (S base) rest
    | Some _ => released network (S base) rest
    end
  end.

(** A network that fails on call number 6 only: the five messages of the
    constructor and one note-on leave, the next message does not. *)
Definition flaky : SimpleUDPClient.t :=
  SimpleUDPClient.mk
    (λ k, if (k =? 6)%nat then Some "Network is unreachable" else None) [].

(** The key codes [_handle_loop_keys] compares its key with. *)
Definition loop_binding (key : Z) : bool :=
  bool_decide (key ∈ [ord "a"; KEY_LEFT; ord "A"; ord "d"; KEY_RIGHT; ord "D";
                      ord "j"; KEY_DOWN; ord "J"; ord "l"; KEY_UP; ord "L"]).

(** An object built like the default one but on the loop window of the
    options [--loop-start 0.5 --loop-min-span 0.5 --loop-step 0.25
    --loop-coarse-step 0.5]: the start is as far up as the minimum span
    lets it go. *)
Definition narrow_loop : LoopParameters.t := LoopParameters.new 0.5 1.0 0.5 0.25 0.5.
Definition narrow_tui : SamplerTUI.t :=
  snd (__init__ online noon "plasma" 8 0.6 ADSR.default narrow_loop None).

(** ** More on the log, the parameters and the loop window *)

(** The log after one [push] per element of [xs], in order. *)
Definition push_all (xs : list (string * Text)) (log : MessageLog.t) : MessageLog.t :=
  foldl (λ l x, MessageLog.push (fst x) (snd x) l) log xs.

Definition as_line (e : string * Text) : MessageLog.Line :=
  MessageLog.Entry (fst e) (snd e).

(** The flags that a sequence of adjusting calls returns, and the window
    it leaves. *)
Fixpoint loop_run (calls : list LoopCall) (lp : LoopParameters.t)
  : list bool * LoopParameters.t :=
  match calls with
  | [] => ([], lp)
  | c :: rest =>
    let (changed, lp') := loop_call c lp in
    let (flags, final) := loop_run rest lp' in
    (changed :: flags, final)
  end.

(** The mapper after the keys of [keys] were pressed one after the
    other. *)
Definition pressed (keys : list Z) (m : KeyboardNoteMapper.t) : KeyboardNoteMapper.t :=
  foldl (λ m key, snd (KeyboardNoteMapper.translate key m)) m keys.

(** How often [key] occurs in [keys]. *)
Definition presses_of (key : Z) (keys : list Z) : nat :=
  length (filter (λ k, k = key) keys).

(** ** MIDI port names *)

(** [str.lower] on ASCII text: the letters [A] to [Z] become [a] to [z],
    every other byte stays. *)
Definition lower_ascii (c : ascii) : ascii :=
  let n := nat_of_ascii c in
  if (65 <=? n)%nat && (n <=? 90)%nat then ascii_of_nat (n + 32) else c.

Fixpoint str_lower (s : string) : string :=
  match s with
  | EmptyString => EmptyString
  | String c rest => String (lower_ascii c) (str_lower rest)
  end.

(** [name] contains [requested], letter case apart. *)
Definition matches (lower : string → string) (requested name : string) : bool :=
  MidiInput.contains (lower requested) (lower name).

(** ** Keys and passes of the loop *)

(** Some handler of [run] has a binding for [key]: quit, panic, a loop
    key, an ADSR key or a note key. *)
Definition bound_key (key : Z) : bool :=
  bool_decide (key ∈ [ord "q"; ord "Q"; ord ";";
                      ord "a"; KEY_LEFT; ord "A"; ord "d"; KEY_RIGHT; ord "D";
                      ord "j"; KEY_DOWN; ord "J"; ord "l"; KEY_UP; ord "L"])
  || bool_decide (is_Some (adsr_key_mapping !! key))
  || bool_decide (is_Some (KeyboardNoteMapper.KEY_MAP !! key)).



(** ** Invariants of the controller *)

(** A method is sound for an invariant when, started on an object that
    satisfies it, it returns (it does not raise) and leaves an object
    that satisfies it. *)
Definition sound (Inv : SamplerTUI.t → Prop) {A : Type} (m : M A) : Prop :=
  ∀ s, Inv s → Inv (snd (m s)) ∧ ∃ a, fst (m s) = Return a.

(** The store has a range for each of the four parameter names. *)
Definition adsr_keys_known (s : SamplerTUI.t) : Prop :=
  ∀ name, name ∈ param_names → is_Some (ADSR.ranges (adsr s) !! name).

(** Every tracked note has a delivered note-on under the sample key among
    the messages of the client. *)
Definition notes_delivered (s : SamplerTUI.t) : Prop :=
  ∀ note, note ∈ VoiceTracker.active_notes (voice_tracker s) →
    ∃ velocity : Q,
      (OSC_NOTE_ON, [AStr (sample_key s); AInt note; AFloat velocity], None)
      ∈ SimpleUDPClient.sent (client s).

Definition well_formed (s : SamplerTUI.t) : Prop :=
  adsr_keys_known s ∧ notes_delivered s.



(** The parameters are within their ranges and the loop window satisfies
    its invariant, with a minimum span that is not negative. *)
Definition in_bounds (s : SamplerTUI.t) : Prop :=
  ranges_well_formed (adsr s) ∧ adsr_in_range (adsr s)
  ∧ LoopInvariant (loop_params s)
  ∧ (0 <= LoopParameters.min_span (loop_params s))%Q.

(** ** The loop bar *)

(** The two marker positions of [_loop_bar]: the index of the start, and
    the index of the end, moved to the right of the start when it is not
    and back to the last position when it is beyond. *)
Definition bar_start (to_index : Q → Z → Z) (width : Z) (s : SamplerTUI.t) : Z :=
  to_index (LoopParameters.start (loop_params s)) (Z.max 20 width - 2)%Z.

Definition bar_end (to_index : Q → Z → Z) (width : Z) (s : SamplerTUI.t) : Z :=
  let segments := (Z.max 20 width - 2)%Z in
  let end_idx := to_index (LoopParameters.end_ (loop_params s)) segments in
  let end_idx :=
    if (end_idx <=? bar_start to_index width s)%Z
    then Z.min segments (bar_start to_index width s + 1)
    else end_idx in
  Z.min end_idx segments.

(** [int(round(x * n))] without the rounding of the product. *)
Definition exact_index (x : Q) (n : Z) : Z := py_round (x * inject_Z n).

(** The characters of a bar of [segments + 1] positions: [|] at the two
    markers, [=] strictly between them and [-] elsewhere. *)
Definition bar_chars (segments start_idx end_idx : nat) : list ascii :=
  map (λ i, if bool_decide (i = start_idx ∨ i = end_idx) then "|"%char
            else if bool_decide (start_idx < i < end_idx)%nat then "="%char
            else "-"%char)
      (seq 0 (S segments)).

(** * Properties *)

(** ** Comparisons and clamping *)

Lemma Qltb_true (x y : Q) : Qltb x y = true ↔ (x < y)%Q.
Proof.
  unfold Qltb. rewrite Qlt_alt. destruct (x ?= y)%Q; split; congruence.
Qed.

Lemma Qltb_false (x y : Q) : Qltb x y = false ↔ (y <= x)%Q.
Proof.
  destruct (Qltb x y) eqn:E.
  - apply Qltb_true in E. split; [discriminate | intros H; lra].
  - split; [intros _ | reflexivity].
    apply Qnot_lt_le. intros H. apply Qltb_true in H. congruence.
Qed.

Ltac case_Qltb :=
  match goal with
  | |- context [Qltb ?x ?y] =>
    let E := fresh "E" in
    destruct (Qltb x y) eqn:E;
    [apply Qltb_true in E | apply Qltb_false in E]
  end.

Lemma py_max_lower (a b : Q) : (a <= py_max a b)%Q ∧ (b <= py_max a b)%Q.
Proof. unfold py_max. case_Qltb; split; lra. Qed.

Lemma py_max_least (a b c : Q) : (a <= c)%Q → (b <= c)%Q → (py_max a b <= c)%Q.
Proof. unfold py_max. case_Qltb; intros; lra. Qed.

Lemma py_min_upper (a b : Q) : (py_min a b <= a)%Q ∧ (py_min a b <= b)%Q.
Proof. unfold py_min. case_Qltb; split; lra. Qed.

Lemma py_min_greatest (a b c : Q) : (c <= a)%Q → (c <= b)%Q → (c <= py_min a b)%Q.
Proof. unfold py_min. case_Qltb; intros; lra. Qed.

(** [max(lo, min(hi, x))] lies in [[lo, hi]] as soon as [lo <= hi]. *)
Lemma clamp_between (lo hi x : Q) :
  (lo <= hi)%Q →
  (lo <= py_max lo (py_min hi x))%Q ∧ (py_max lo (py_min hi x) <= hi)%Q.
Proof.
  intros Hle. split.
  - apply py_max_lower.
  - apply py_max_least; [exact Hle | apply py_min_upper].
Qed.

Lemma _clamp_between (value : Q) :
  (0 <= LoopParameters._clamp value)%Q ∧ (LoopParameters._clamp value <= 1)%Q.
Proof.
  unfold LoopParameters._clamp.
  destruct (clamp_between 0.0 1.0 value) as [H1 H2]; [lra |]. split; lra.
Qed.

(** ** LoopParameters: the window invariant *)

Lemma min_span_new (start end_ min_span step coarse_step : Q) :
  LoopParameters.min_span (LoopParameters.new start end_ min_span step coarse_step)
  = min_span.
Proof.
  unfold LoopParameters.new, LoopParameters.__post_init__. simpl.
  destruct (Qltb _ _); reflexivity.
Qed.

Lemma min_span_loop_call (c : LoopCall) (lp : LoopParameters.t) :
  LoopParameters.min_span (snd (loop_call c lp)) = LoopParameters.min_span lp.
Proof.
  destruct c; simpl;
    unfold LoopParameters.adjust_start, LoopParameters.adjust_end;
    destruct (Qltb (py_abs _) _); reflexivity.
Qed.

Lemma new_invariant (start end_ min_span step coarse_step : Q) :
  (0 <= min_span)%Q → (min_span <= 1)%Q →
  LoopInvariant (LoopParameters.new start end_ min_span step coarse_step).
Proof.
  intros H0 H1.
  unfold LoopInvariant, LoopParameters.new, LoopParameters.__post_init__. simpl.
  destruct (_clamp_between start) as [Hs0 Hs1].
  destruct (_clamp_between end_) as [He0 He1].
  set (s := LoopParameters._clamp start) in *.
  set (e := LoopParameters._clamp end_) in *.
  case_Qltb; simpl.
  - unfold py_max, py_min. repeat case_Qltb; repeat split; lra.
  - repeat split; lra.
Qed.

Lemma adjust_start_invariant (delta : Q) (lp : LoopParameters.t) :
  (0 <= LoopParameters.min_span lp)%Q →
  LoopInvariant lp →
  LoopInvariant (snd (LoopParameters.adjust_start delta lp)).
Proof.
  intros H0 (Hs & Hse & He & Hspan).
  unfold LoopParameters.adjust_start.
  destruct (_clamp_between (LoopParameters.start lp + delta)) as [Hc0 Hc1].
  set (c := LoopParameters._clamp _) in *.
  destruct (Qltb (py_abs _) _); simpl; [repeat split; assumption |].
  unfold LoopInvariant; simpl. case_Qltb; repeat split; lra.
Qed.

Lemma adjust_end_invariant (delta : Q) (lp : LoopParameters.t) :
  (0 <= LoopParameters.min_span lp)%Q →
  LoopInvariant lp →
  LoopInvariant (snd (LoopParameters.adjust_end delta lp)).
Proof.
  intros H0 (Hs & Hse & He & Hspan).
  unfold LoopParameters.adjust_end.
  destruct (_clamp_between (LoopParameters.end_ lp + delta)) as [Hc0 Hc1].
  set (c := LoopParameters._clamp _) in *.
  destruct (Qltb (py_abs _) _); simpl; [repeat split; assumption |].
  unfold LoopInvariant; simpl. case_Qltb; repeat split; lra.
Qed.


Lemma ordered_of_invariant (lp : LoopParameters.t) :
  LoopInvariant lp → WindowOrdered lp.
Proof. intros (H0 & H1 & H2 & _). repeat split; assumption. Qed.





(** C4: a call of [adjust_start] or [adjust_end] that returns true adds
    exactly 1 to [revision]; a call that returns false leaves the whole
    object, so [revision], [start] and [end], as it was. *)
Theorem C4_revision_counts_changes (c : LoopCall) (lp : LoopParameters.t) :
  match loop_call c lp with
  | (true, lp') => LoopParameters.revision lp' = (LoopParameters.revision lp + 1)%Z
  | (false, lp') => lp' = lp
  end.
Proof.
  destruct c; simpl;
    unfold LoopParameters.adjust_start, LoopParameters.adjust_end;
    destruct (Qltb (py_abs _) _); reflexivity.
Qed.

(** ** ADSR: clamped adjustment *)

Lemma Qltb_compat (x x' y y' : Q) :
  (x == x')%Q → (y == y')%Q → Qltb x y = Qltb x' y'.
Proof. intros Hx Hy. unfold Qltb. rewrite Hx, Hy. reflexivity. Qed.

Lemma clamp_py (x lo hi : Q) :
  (lo <= hi)%Q → (py_max lo (py_min hi x) == clamp x lo hi)%Q.
Proof.
  intros Hle. unfold py_max, py_min, clamp.
  destruct (Qltb x hi) eqn:E1; [apply Qltb_true in E1 | apply Qltb_false in E1];
  destruct (Qltb x lo) eqn:E2; [apply Qltb_true in E2 | apply Qltb_false in E2
                               | apply Qltb_true in E2 | apply Qltb_false in E2];
  repeat case_Qltb; lra.
Qed.

Lemma getattr_param (a : ADSR.t) (name : string) :
  name ∈ param_names → ∃ v, ADSR.getattr a name = Return v.
Proof.
  unfold param_names. rewrite !elem_of_cons, elem_of_nil.
  intros [-> | [-> | [-> | [-> | []]]]]; eexists; reflexivity.
Qed.

Lemma getattr_setattr_same (a : ADSR.t) (name : string) (v : Q) :
  name ∈ param_names → ADSR.getattr (ADSR.setattr a name v) name = Return v.
Proof.
  unfold param_names. rewrite !elem_of_cons, elem_of_nil.
  intros [-> | [-> | [-> | [-> | []]]]]; reflexivity.
Qed.

Lemma getattr_setattr_other (a : ADSR.t) (name other : string) (v : Q) :
  other ≠ name → ADSR.getattr (ADSR.setattr a name v) other = ADSR.getattr a other.
Proof.
  intros Hne. unfold ADSR.getattr, ADSR.setattr.
  repeat match goal with
         | |- context [String.eqb ?x ?y] =>
           destruct (String.eqb_spec x y); simpl; subst
         end; try reflexivity; congruence.
Qed.

Lemma ranges_setattr (a : ADSR.t) (name : string) (v : Q) :
  ADSR.ranges (ADSR.setattr a name v) = ADSR.ranges a.
Proof. unfold ADSR.setattr. repeat destruct (String.eqb _ _); reflexivity. Qed.

(** What one call of [adjust] does, in the specification's terms. *)
Lemma adjust_step (a : ADSR.t) (name : string) (direction : Z) (coarse : bool)
    (rng : ADSRRange.t) (current : Q) :
  ADSR.ranges a !! name = Some rng →
  ADSR.getattr a name = Return current →
  (ADSRRange.minimum rng <= ADSRRange.maximum rng)%Q →
  ∃ v : Q,
    (v == adjust_target current (ADSRRange.step rng) direction coarse
            (ADSRRange.minimum rng) (ADSRRange.maximum rng))%Q
    ∧ (ADSRRange.minimum rng <= v)%Q ∧ (v <= ADSRRange.maximum rng)%Q
    ∧ ADSR.adjust a name direction coarse
      = Return (if Qltb (Qabs (v - current)) 1e-6
                then (false, a) else (true, ADSR.setattr a name v)).
Proof.
  intros Hrng Hcur Hle. unfold ADSR.adjust. rewrite Hrng, Hcur.
  set (v := py_max _ _). exists v. split; [| split; [| split]].
  - unfold v, adjust_target. rewrite clamp_py by exact Hle.
    unfold clamp.
    assert (current + inject_Z direction
                      * (ADSRRange.step rng * (if coarse then 5 else 1))
            == current + inject_Z direction * ADSRRange.step rng
                         * (if coarse then 5 else 1))%Q as Heq by ring.
    rewrite (Qltb_compat _ _ _ _ Heq (Qeq_refl _)).
    rewrite (Qltb_compat _ _ _ _ (Qeq_refl (ADSRRange.maximum rng)) Heq).
    repeat case_Qltb; try reflexivity. exact Heq.
  - apply clamp_between, Hle.
  - apply clamp_between, Hle.
  - unfold py_abs. destruct (Qltb _ _); reflexivity.
Qed.

Lemma adjust_preserves (a : ADSR.t) (name : string) (direction : Z) (coarse : bool) :
  name ∈ param_names → ranges_well_formed a → adsr_in_range a →
  ∃ changed a',
    ADSR.adjust a name direction coarse = Return (changed, a')
    ∧ ranges_well_formed a' ∧ adsr_in_range a'.
Proof.
  intros Hname Hwf Hin.
  pose proof (proj1 (Forall_forall _ _) Hwf name Hname) as Hrng.
  cbv beta in Hrng.
  destruct (ADSR.ranges a !! name) as [rng |] eqn:Erng; [| contradiction].
  destruct (getattr_param a name Hname) as [current Hcur].
  destruct (adjust_step a name direction coarse rng current Erng Hcur Hrng)
    as (v & _ & Hlo & Hhi & Hadj).
  rewrite Hadj. destruct (Qltb _ _).
  - exists false, a. auto.
  - exists true, (ADSR.setattr a name v). split; [reflexivity |]. split.
    + unfold ranges_well_formed. rewrite ranges_setattr. exact Hwf.
    + apply Forall_forall. intros other Hother.
      pose proof (proj1 (Forall_forall _ _) Hin other Hother) as Ho.
      unfold attr_in_range in *. rewrite ranges_setattr.
      destruct (decide (other = name)) as [-> | Hne].
      * rewrite Erng, getattr_setattr_same by exact Hname. split; assumption.
      * rewrite getattr_setattr_other by exact Hne. exact Ho.
Qed.

Lemma adsr_history_in_range (calls : list AdjustCall) (a : ADSR.t) :
  Forall (λ c, call_name c ∈ param_names) calls →
  ranges_well_formed a → adsr_in_range a →
  length (adsr_history calls a) = S (length calls)
  ∧ Forall adsr_in_range (adsr_history calls a).
Proof.
  revert a. induction calls as [| c rest IH]; intros a Hnames Hwf Hin; simpl.
  - split; [reflexivity | constructor; [assumption | constructor]].
  - inversion Hnames as [| ? ? Hc Hrest]; subst.
    destruct (adjust_preserves a (call_name c) (call_direction c) (call_coarse c)
                Hc Hwf Hin) as (changed & a' & -> & Hwf' & Hin').
    destruct (IH a' Hrest Hwf' Hin') as [Hlen Hall].
    split; [rewrite Hlen; reflexivity | constructor; assumption].
Qed.

Lemma default_well_formed : ranges_well_formed ADSR.default.
Proof.
  unfold ranges_well_formed, param_names.
  repeat constructor; vm_compute; discriminate.
Qed.

Lemma default_in_range : adsr_in_range ADSR.default.
Proof.
  unfold adsr_in_range, param_names.
  repeat (apply Forall_cons; split); try apply Forall_nil;
    vm_compute; split; discriminate.
Qed.

(** C5: for each of the four parameter names, every direction and every
    coarse flag, [adjust] computes the clamp of
    [current + direction * step * (5 if coarse else 1)] to the
    parameter's range; when that differs from the current value by less
    than 1e-6 it returns false and leaves the store as it was, otherwise
    it returns true and stores the clamped value, the other parameters
    and the ranges untouched.  So from [ADSR()], and from any store whose
    values are in range, every sequence of adjustments runs without
    raising and keeps all four values within their ranges at every
    step. *)
Theorem C5_adjust_clamps_to_range :
  (∀ (a : ADSR.t) (name : string) (direction : Z) (coarse : bool)
     (rng : ADSRRange.t) (current : Q),
     name ∈ param_names →
     ADSR.ranges a !! name = Some rng →
     ADSR.getattr a name = Return current →
     (ADSRRange.minimum rng <= ADSRRange.maximum rng)%Q →
     let target := adjust_target current (ADSRRange.step rng) direction coarse
                     (ADSRRange.minimum rng) (ADSRRange.maximum rng) in
     if Qltb (Qabs (target - current)) 1e-6
     then ADSR.adjust a name direction coarse = Return (false, a)
     else ∃ (a' : ADSR.t) (v : Q),
         ADSR.adjust a name direction coarse = Return (true, a')
         ∧ ADSR.getattr a' name = Return v ∧ (v == target)%Q
         ∧ ADSR.ranges a' = ADSR.ranges a
         ∧ ∀ other, other ≠ name → ADSR.getattr a' other = ADSR.getattr a other)
  ∧ (∀ (calls : list AdjustCall) (a : ADSR.t),
       Forall (λ c, call_name c ∈ param_names) calls →
       ranges_well_formed a → adsr_in_range a →
       length (adsr_history calls a) = S (length calls)
       ∧ Forall adsr_in_range (adsr_history calls a))
  ∧ ranges_well_formed ADSR.default ∧ adsr_in_range ADSR.default.
Proof.
  split; [| split; [| split]].
  - intros a name direction coarse rng current Hname Hrng Hcur Hle target.
    destruct (adjust_step a name direction coarse rng current Hrng Hcur Hle)
      as (v & Hv & _ & _ & Hadj).
    fold target in Hv.
    assert (Qltb (Qabs (v - current)) 1e-6 = Qltb (Qabs (target - current)) 1e-6)
      as Htest.
    { apply Qltb_compat; [| reflexivity]. rewrite Hv. reflexivity. }
    rewrite Htest in Hadj. destruct (Qltb (Qabs (target - current)) 1e-6).
    + exact Hadj.
    + exists (ADSR.setattr a name v), v.
      split; [exact Hadj |]. split; [apply getattr_setattr_same, Hname |].
      split; [exact Hv |]. split; [apply ranges_setattr |].
      intros other Hne. apply getattr_setattr_other, Hne.
  - apply adsr_history_in_range.
  - apply default_well_formed.
  - apply default_in_range.
Qed.

(** The attack of [ADSR()] stepped down once lands on its minimum 0.001. *)
Lemma C5_adjust_clamps_to_range_witness :
  (∃ (a' : ADSR.t) (v : Q),
      ADSR.adjust ADSR.default "attack" (-1)%Z false = Return (true, a')
      ∧ ADSR.getattr a' "attack" = Return v ∧ (v == 0.001)%Q)
  ∧ Forall adsr_in_range
      (adsr_history [adjust_call "attack" (-1)%Z false; adjust_call "attack" (-1)%Z false;
                     adjust_call "sustain" 1%Z true]
                    ADSR.default).
Proof.
  destruct C5_adjust_clamps_to_range as (Hstep & Hseq & Hwf & Hin). split.
  - assert ("attack" ∈ param_names) as Hname by apply list_elem_of_here.
    assert (ADSR.ranges ADSR.default !! "attack" = Some (ADSRRange.mk 0.001 2.0 0.01))
      as Hrng by (vm_compute; reflexivity).
    assert (ADSRRange.minimum (ADSRRange.mk 0.001 2.0 0.01)
            <= ADSRRange.maximum (ADSRRange.mk 0.001 2.0 0.01))%Q
      as Hle by (vm_compute; discriminate).
    pose proof (Hstep ADSR.default "attack" (-1)%Z false _ 0.01%Q Hname Hrng eq_refl Hle)
      as H.
    cbv zeta in H.
    assert (Qltb (Qabs (adjust_target 0.01 0.01 (-1)%Z false 0.001 2.0 - 0.01)) 1e-6
            = false) as Htest by (vm_compute; reflexivity).
    simpl ADSRRange.step in H. simpl ADSRRange.minimum in H.
    simpl ADSRRange.maximum in H. rewrite Htest in H.
    destruct H as (a' & v & Hadj & Hget & Hv).
    exists a', v. split; [exact Hadj |]. split; [exact Hget |].
    rewrite (proj1 Hv). vm_compute. reflexivity.
  - apply (Hseq _ ADSR.default); [| exact Hwf | exact Hin].
    repeat constructor.
Defined.

(** ** VoiceTracker against on/off semantics *)

Lemma note_on_voices (note : Z) (vt : VoiceTracker.t) :
  VoiceTracker._voices (VoiceTracker.note_on note vt)
  = filter (λ k, k ≠ note) (VoiceTracker._voices vt) ++ [note].
Proof.
  unfold VoiceTracker.note_on. case_bool_decide as Hin; simpl; [reflexivity |].
  f_equal. induction (VoiceTracker._voices vt) as [| x l IH]; [reflexivity |].
  rewrite not_elem_of_cons in Hin. destruct Hin as [Hx Hl].
  rewrite filter_cons_True by congruence. f_equal. apply IH, Hl.
Qed.

Lemma filter_absent (note : Z) (l : list Z) :
  note ∉ l → filter (λ k, k ≠ note) l = l.
Proof.
  induction l as [| x l IH]; [reflexivity |].
  rewrite not_elem_of_cons. intros [Hx Hl].
  rewrite filter_cons_True by congruence. f_equal. apply IH, Hl.
Qed.

Lemma length_filter_present (note : Z) (l : list Z) :
  NoDup l → note ∈ l → S (length (filter (λ k, k ≠ note) l)) = length l.
Proof.
  induction l as [| x l IH]; intros Hnd Hin.
  - apply elem_of_nil in Hin. contradiction.
  - apply NoDup_cons in Hnd. destruct Hnd as [Hx Hnd].
    destruct (decide (x = note)) as [-> | Hne].
    + rewrite filter_cons_False by (intros H; apply H; reflexivity).
      rewrite filter_absent by exact Hx. reflexivity.
    + rewrite filter_cons_True by exact Hne. simpl. f_equal. apply IH; [exact Hnd |].
      apply elem_of_cons in Hin. destruct Hin as [-> | Hin]; [congruence | exact Hin].
Qed.

Lemma sorted_filter_change (R R' : relation Z) (P : Z → Prop)
    `{!∀ x, Decision (P x)} (l : list Z) :
  StronglySorted R l →
  (∀ a b, P a → P b → R a b → R' a b) →
  StronglySorted R' (filter P l).
Proof.
  intros Hs HR. induction Hs as [| x l Hs IH Hx].
  - constructor.
  - destruct (decide (P x)) as [Px | Px].
    + rewrite filter_cons_True by exact Px. constructor; [exact IH |].
      apply Forall_forall. intros y Hy. apply list_elem_of_filter in Hy.
      destruct Hy as [Py Hy]. apply HR; [exact Px | exact Py |].
      exact (proj1 (Forall_forall _ _) Hx y Hy).
    + rewrite filter_cons_False by exact Px. exact IH.
Qed.

Lemma tracks_note_on (note : Z) (vt : VoiceTracker.t) (st : nat * gmap Z nat) :
  tracks (VoiceTracker._voices vt) st →
  tracks (VoiceTracker._voices (VoiceTracker.note_on note vt))
         (on_off st (call_note_on note)).
Proof.
  intros (Hnd & Hdom & Hlt & Hs). rewrite note_on_voices.
  destruct st as [k m]. unfold tracks. simpl in *. repeat split.
  - apply NoDup_app. split; [apply NoDup_filter, Hnd |]. split.
    + intros x Hx. apply list_elem_of_filter in Hx. destruct Hx as [Hx _].
      rewrite list_elem_of_singleton. exact Hx.
    + apply NoDup_singleton.
  - rewrite elem_of_app, list_elem_of_filter, list_elem_of_singleton.
    intros [[Hne Hin] | ->].
    + rewrite lookup_insert_ne by congruence. apply Hdom, Hin.
    + rewrite lookup_insert_eq. eauto.
  - rewrite elem_of_app, list_elem_of_filter, list_elem_of_singleton.
    destruct (decide (n = note)) as [-> | Hne]; [auto |].
    rewrite lookup_insert_ne by congruence. intros H. left.
    split; [exact Hne | apply Hdom, H].
  - intros n t. destruct (decide (n = note)) as [-> | Hne].
    + rewrite lookup_insert_eq. intros [= <-]. lia.
    + rewrite lookup_insert_ne by congruence. intros H.
      specialize (Hlt n t H). lia.
  - apply StronglySorted_app. split; [| split].
    + intros a b Ha Hb. apply list_elem_of_filter in Ha. destruct Ha as [Hne Ha].
      apply list_elem_of_singleton in Hb. subst b.
      apply Hdom in Ha. destruct Ha as [ta Hta].
      exists ta, k. rewrite lookup_insert_ne by congruence.
      rewrite lookup_insert_eq. split; [exact Hta |]. split; [reflexivity |].
      exact (Hlt a ta Hta).
    + apply (sorted_filter_change (older m)); [exact Hs |].
      intros a b Ha Hb (ta & tb & Hta & Htb & Hab). exists ta, tb.
      rewrite !lookup_insert_ne by congruence. auto.
    + repeat constructor.
Qed.

Lemma tracks_note_off (note : Z) (vt : VoiceTracker.t) (st : nat * gmap Z nat) :
  tracks (VoiceTracker._voices vt) st →
  tracks (VoiceTracker._voices (VoiceTracker.note_off note vt))
         (on_off st (call_note_off note)).
Proof.
  intros (Hnd & Hdom & Hlt & Hs).
  destruct st as [k m]. unfold tracks. simpl in *. repeat split.
  - apply NoDup_filter, Hnd.
  - rewrite list_elem_of_filter. intros [Hne Hin].
    rewrite lookup_delete_ne by congruence. apply Hdom, Hin.
  - rewrite list_elem_of_filter.
    destruct (decide (n = note)) as [-> | Hne].
    + rewrite lookup_delete_eq. intros [? H]. discriminate.
    + rewrite lookup_delete_ne by congruence. intros H.
      split; [exact Hne | apply Hdom, H].
  - intros n t. destruct (decide (n = note)) as [-> | Hne].
    + rewrite lookup_delete_eq. discriminate.
    + rewrite lookup_delete_ne by congruence. intros H.
      specialize (Hlt n t H). lia.
  - apply (sorted_filter_change (older m)); [exact Hs |].
    intros a b Ha Hb (ta & tb & Hta & Htb & Hab). exists ta, tb.
    rewrite !lookup_delete_ne by congruence. auto.
Qed.

Lemma tracks_calls (calls : list VoiceCall) (vt : VoiceTracker.t)
    (st : nat * gmap Z nat) :
  tracks (VoiceTracker._voices vt) st →
  tracks (VoiceTracker._voices (voices_after calls vt)) (foldl on_off st calls).
Proof.
  revert vt st. induction calls as [| c rest IH]; intros vt st Ht; simpl.
  - exact Ht.
  - apply IH. destruct c; simpl; [apply tracks_note_on | apply tracks_note_off];
      exact Ht.
Qed.

Lemma tracks_reachable (calls : list VoiceCall) (limit : Z) :
  tracks (VoiceTracker._voices (voices_after calls (VoiceTracker.__init__ limit)))
         (foldl on_off (0%nat, ∅) calls).
Proof.
  apply tracks_calls. unfold tracks. simpl. repeat split.
  - apply NoDup_nil_2.
  - intros H. apply elem_of_nil in H. contradiction.
  - rewrite lookup_empty. intros [? H]. discriminate.
  - intros n t. rewrite lookup_empty. discriminate.
  - constructor.
Qed.

(** C6: after every sequence of [note_on]/[note_off] calls on a new
    tracker, [count] is the number of distinct notes that are on under
    the on/off semantics, the tracked notes are exactly those notes, each
    once, and [active_notes()] lists them from the one switched on longest
    ago to the one switched on most recently.  A further [note_on] puts
    its note last, keeps the others in their order, and leaves [count] as
    it is for a tracked note and adds 1 for a new one; a [note_off] of a
    note that is not tracked changes nothing. *)
Theorem C6_voice_tracker_counts_sounding_notes (calls : list VoiceCall) (limit : Z) :
  let vt := voices_after calls (VoiceTracker.__init__ limit) in
  VoiceTracker.count vt = Z.of_nat (size (sounding calls))
  ∧ NoDup (VoiceTracker.active_notes vt)
  ∧ (list_to_set (VoiceTracker.active_notes vt) : gset Z) = sounding calls
  ∧ StronglySorted (older (on_since calls)) (VoiceTracker.active_notes vt)
  ∧ (∀ note : Z,
       let vt' := VoiceTracker.note_on note vt in
       VoiceTracker.active_notes vt'
       = filter (λ k, k ≠ note) (VoiceTracker.active_notes vt) ++ [note]
       ∧ last (VoiceTracker.active_notes vt') = Some note
       ∧ VoiceTracker.count vt'
         = if bool_decide (note ∈ VoiceTracker.active_notes vt)
           then VoiceTracker.count vt else (VoiceTracker.count vt + 1)%Z)
  ∧ (∀ note : Z,
       VoiceTracker.note_off note vt
       = if bool_decide (note ∈ VoiceTracker.active_notes vt)
         then VoiceTracker.mk (VoiceTracker.limit vt)
                (filter (λ k, k ≠ note) (VoiceTracker.active_notes vt))
         else vt).
Proof.
  intros vt. destruct (tracks_reachable calls limit) as (Hnd & Hdom & _ & Hs).
  fold vt in Hnd, Hdom, Hs. fold (on_since calls) in Hdom, Hs.
  unfold VoiceTracker.active_notes, VoiceTracker.count.
  assert ((list_to_set (VoiceTracker._voices vt) : gset Z) = sounding calls) as Hset.
  { apply set_eq. intros n. unfold sounding.
    rewrite elem_of_list_to_set, elem_of_dom. apply Hdom. }
  split; [| split; [exact Hnd | split; [exact Hset | split; [exact Hs | split]]]].
  - rewrite <- Hset, size_list_to_set by exact Hnd. reflexivity.
  - intros note. rewrite note_on_voices.
    split; [reflexivity |]. split; [apply last_snoc |].
    rewrite length_app. simpl. case_bool_decide as Hin.
    + rewrite <- (length_filter_present note _ Hnd Hin). f_equal. lia.
    + rewrite filter_absent by exact Hin. lia.
  - intros note. unfold VoiceTracker.note_off. case_bool_decide as Hin.
    + reflexivity.
    + rewrite filter_absent by exact Hin. destruct vt; reflexivity.
Qed.

(** ** KeyboardNoteMapper: the toggle *)

(** C8: for a mapped key whose note is off, three successive presses
    translate to (note, on), (note, off) and (note, on); a key code
    outside the table translates to nothing and leaves the toggle states
    as they are. *)
Theorem C8_translate_toggles (key_code : Z) (m : KeyboardNoteMapper.t) :
  (∀ note : Z,
     KeyboardNoteMapper.KEY_MAP !! key_code = Some note →
     default false (KeyboardNoteMapper.active m !! note) = false →
     let (r1, m1) := KeyboardNoteMapper.translate key_code m in
     let (r2, m2) := KeyboardNoteMapper.translate key_code m1 in
     let (r3, m3) := KeyboardNoteMapper.translate key_code m2 in
     r1 = Some (note, true) ∧ r2 = Some (note, false) ∧ r3 = Some (note, true))
  ∧ (KeyboardNoteMapper.KEY_MAP !! key_code = None →
     KeyboardNoteMapper.translate key_code m = (None, m)).
Proof.
  split.
  - intros note Hkey Hoff. unfold KeyboardNoteMapper.translate.
    rewrite Hkey. simpl. rewrite Hoff. simpl.
    rewrite !lookup_insert_eq. simpl. auto.
  - intros Hkey. unfold KeyboardNoteMapper.translate. rewrite Hkey. reflexivity.
Qed.

(** The key [z] on a new mapper, and the unmapped key [a]. *)
Lemma C8_translate_toggles_witness :
  (let m := KeyboardNoteMapper.__init__ in
   let (r1, m1) := KeyboardNoteMapper.translate (ord "z") m in
   let (r2, m2) := KeyboardNoteMapper.translate (ord "z") m1 in
   let (r3, m3) := KeyboardNoteMapper.translate (ord "z") m2 in
   r1 = Some (60%Z, true) ∧ r2 = Some (60%Z, false) ∧ r3 = Some (60%Z, true))
  ∧ KeyboardNoteMapper.translate (ord "a") KeyboardNoteMapper.__init__
    = (None, KeyboardNoteMapper.__init__).
Proof.
  split.
  - apply (proj1 (C8_translate_toggles (ord "z") KeyboardNoteMapper.__init__) 60%Z);
      vm_compute; reflexivity.
  - apply (proj2 (C8_translate_toggles (ord "a") KeyboardNoteMapper.__init__)).
    vm_compute. reflexivity.
Defined.

(** ** SamplerTUI: what a method keeps *)

(** A method keeps a preorder [R] on objects when the object it leaves,
    returning or raising, is related to the one it started on.  The
    lemmas of this section reduce that to the single writes of the
    method: to the log and clock, the client, the tracker, the
    parameters, the loop window, the mapper and the port. *)
Section Keeps.

Context (R : relation SamplerTUI.t) `{!PreOrder R}.
Context (allowed : SamplerTUI.t → string → list Arg → Prop).

Lemma keeps_ret {A : Type} (a : A) : keeps R (ret a).
Proof. intros s. unfold keeps_at. simpl. reflexivity. Qed.

Lemma keeps_get : keeps R get.
Proof. intros s. unfold keeps_at. simpl. reflexivity. Qed.

Lemma keeps_modify (f : SamplerTUI.t → SamplerTUI.t) :
  (∀ s, R s (f s)) → keeps R (modify f).
Proof. intros Hf s. apply Hf. Qed.

Lemma keeps_at_bind {A B : Type} (m : M A) (k : A → M B) (s : SamplerTUI.t) :
  keeps_at R m s → (∀ a, keeps R (k a)) → keeps_at R (bind m k) s.
Proof.
  unfold keeps_at, bind. intros Hm Hk.
  destruct (m s) as [[a | e] s']; simpl in *.
  - etransitivity; [exact Hm | apply Hk].
  - exact Hm.
Qed.

Lemma keeps_bind {A B : Type} (m : M A) (k : A → M B) :
  keeps R m → (∀ a, keeps R (k a)) → keeps R (bind m k).
Proof. intros Hm Hk s. apply keeps_at_bind; [apply Hm | exact Hk]. Qed.

Lemma keeps_at_get_bind {A : Type} (k : SamplerTUI.t → M A) (s : SamplerTUI.t) :
  keeps_at R (k s) s → keeps_at R (bind get k) s.
Proof. intros Hk. exact Hk. Qed.

Lemma keeps_get_bind {A : Type} (k : SamplerTUI.t → M A) :
  (∀ s, keeps_at R (k s) s) → keeps R (bind get k).
Proof. intros Hk s. apply Hk. Qed.

Lemma keeps_at_try {A : Type} (body : M A) (handler : string → M A)
    (s : SamplerTUI.t) :
  keeps_at R body s → (∀ err, keeps R (handler err)) →
  keeps_at R (try_except_OSError body handler) s.
Proof.
  unfold keeps_at, try_except_OSError. intros Hb Hh.
  destruct (body s) as [[a | [err | key | name]] s']; simpl in *; try exact Hb.
  etransitivity; [exact Hb | apply Hh].
Qed.

Lemma keeps_for_each {A : Type} (xs : list A) (body : A → M unit) :
  (∀ x, keeps R (body x)) → keeps R (for_each xs body).
Proof.
  intros Hb. induction xs as [| x rest IH]; simpl.
  - apply keeps_ret.
  - apply keeps_bind; [apply Hb | intros _; exact IH].
Qed.

Lemma keeps_try_finally {A : Type} (body : M A) (cleanup : M unit) :
  keeps R body → keeps R cleanup → keeps R (try_finally body cleanup).
Proof.
  intros Hb Hc s. unfold keeps_at, try_finally.
  specialize (Hb s). unfold keeps_at in Hb.
  destruct (body s) as [r s']. simpl in Hb.
  specialize (Hc s'). unfold keeps_at in Hc.
  destruct (cleanup s') as [[[] | e] s'']; simpl in *;
    (etransitivity; [exact Hb | exact Hc]).
Qed.

(** The writes. *)
Hypothesis R_log : ∀ s l c, R s (set_msg_log l (set_clock c s)).
Hypothesis R_send : ∀ s address payload outcome,
  allowed s address payload →
  R s (set_client
         (SimpleUDPClient.mk (SimpleUDPClient.network (client s))
            (SimpleUDPClient.sent (client s) ++ [(address, payload, outcome)]))
         s).
Hypothesis R_voice_tracker : ∀ s v, R s (set_voice_tracker v s).
Hypothesis R_adsr : ∀ s v, R s (set_adsr v s).
Hypothesis R_loop_params : ∀ s v, R s (set_loop_params v s).
Hypothesis R_keyboard_mapper : ∀ s v, R s (set_keyboard_mapper v s).
Hypothesis R_midi : ∀ s v, R s (set_midi v s).

(** The messages. *)
Hypothesis allowed_note_off : ∀ s note,
  allowed s OSC_NOTE_OFF [AStr (sample_key s); AInt note].
Hypothesis allowed_param : ∀ s name value,
  allowed s OSC_PARAM [AStr name; AFloat value].
Hypothesis allowed_loop : ∀ s,
  allowed s OSC_LOOP (LoopParameters.payload (loop_params s)).
Hypothesis allowed_key_note_on : ∀ s note,
  allowed s OSC_NOTE_ON [AStr (sample_key s); AInt note; AFloat (default_velocity s)].

Lemma keeps_push (text : Text) : keeps R (push text).
Proof.
  intros s. unfold keeps_at, push. destruct (Time.strftime (clock s)). apply R_log.
Qed.

Lemma keeps_at_send_message (address : string) (payload : list Arg)
    (s : SamplerTUI.t) :
  allowed s address payload → keeps_at R (send_message address payload) s.
Proof.
  intros Ha. unfold keeps_at, send_message, SimpleUDPClient.send_message.
  destruct (SimpleUDPClient.network _ _); simpl; apply R_send, Ha.
Qed.

Lemma keeps_at_guarded_send (address : string) (payload : list Arg)
    (text : string → Text) (s : SamplerTUI.t) :
  allowed s address payload →
  keeps_at R (try_except_OSError (bind (send_message address payload) (λ _, ret true))
              (λ err, bind (push (text err)) (λ _, ret false))) s.
Proof.
  intros Ha. apply keeps_at_try.
  - apply keeps_at_bind; [apply keeps_at_send_message, Ha | intros _; apply keeps_ret].
  - intros err. apply keeps_bind; [apply keeps_push | intros _; apply keeps_ret].
Qed.

Lemma keeps_at__send_note_on (note : Z) (velocity : Q) (source : string)
    (s : SamplerTUI.t) :
  allowed s OSC_NOTE_ON [AStr (sample_key s); AInt note; AFloat velocity] →
  keeps_at R (_send_note_on note velocity source) s.
Proof.
  intros Ha. unfold _send_note_on. apply keeps_at_get_bind.
  apply keeps_at_bind; [apply keeps_at_guarded_send, Ha |].
  intros [|]; [| apply keeps_ret].
  apply keeps_bind; [| intros _; apply keeps_push].
  apply keeps_modify. intros s'. apply R_voice_tracker.
Qed.

Lemma keeps__send_note_off (note : Z) (source : string) :
  keeps R (_send_note_off note source).
Proof.
  unfold _send_note_off. apply keeps_get_bind. intros s.
  apply keeps_at_bind; [apply keeps_at_guarded_send, allowed_note_off |].
  intros [|]; [| apply keeps_ret].
  apply keeps_bind; [| intros _; apply keeps_push].
  apply keeps_modify. intros s'. apply R_voice_tracker.
Qed.

Lemma keeps__send_param_update (param : string) (value : Q) :
  keeps R (_send_param_update param value).
Proof.
  intros s. unfold _send_param_update. apply keeps_at_try.
  - apply keeps_at_send_message, allowed_param.
  - intros err. apply keeps_push.
Qed.

Lemma keeps__send_initial_params : keeps R _send_initial_params.
Proof.
  unfold _send_initial_params. apply keeps_get_bind. intros s.
  apply keeps_for_each. intros [name value]. apply keeps__send_param_update.
Qed.

Lemma keeps__send_loop_update (reason : string) : keeps R (_send_loop_update reason).
Proof.
  unfold _send_loop_update. apply keeps_get_bind. intros s.
  apply keeps_at_bind; [apply keeps_at_guarded_send, allowed_loop |].
  intros [|]; [| apply keeps_ret].
  apply keeps_get_bind. intros s'. apply keeps_push.
Qed.

Lemma keeps__panic_all_notes_off : keeps R _panic_all_notes_off.
Proof.
  unfold _panic_all_notes_off. apply keeps_get_bind. intros s.
  destruct (VoiceTracker.active_notes (voice_tracker s)) as [| note rest].
  - apply keeps_push.
  - apply keeps_bind; [| intros _; apply keeps_push].
    apply keeps_for_each. intros x. apply keeps__send_note_off.
Qed.

Lemma keeps__poll_midi (pending : list MidiInput.Message) :
  (∀ s note velocity,
     allowed s OSC_NOTE_ON [AStr (sample_key s); AInt note; AFloat velocity]) →
  keeps R (_poll_midi pending).
Proof.
  intros Ha. unfold _poll_midi. apply keeps_get_bind. intros s.
  destruct (midi s); [| apply keeps_ret].
  apply keeps_for_each. intros message.
  destruct (_ && _); [intros s'; apply keeps_at__send_note_on, Ha |].
  destruct (_ || _); [apply keeps__send_note_off | apply keeps_ret].
Qed.

Lemma keeps__poll_midi_nil : keeps R (_poll_midi []).
Proof.
  unfold _poll_midi. apply keeps_get_bind. intros s.
  destruct (midi s); apply keeps_ret.
Qed.

Lemma keeps_adsr_adjust (name : string) (direction : Z) (coarse : bool) :
  keeps R (adsr_adjust name direction coarse).
Proof.
  intros s. unfold keeps_at, adsr_adjust.
  destruct (ADSR.adjust _ _ _ _) as [[changed a] | e]; simpl;
    [apply R_adsr | reflexivity].
Qed.

Lemma keeps_adsr_get (name : string) : keeps R (adsr_get name).
Proof. intros s. unfold keeps_at. simpl. reflexivity. Qed.

Lemma keeps__handle_adsr_keys (key : Z) : keeps R (_handle_adsr_keys key).
Proof.
  unfold _handle_adsr_keys.
  destruct (adsr_key_mapping !! key) as [[[name direction] coarse] |];
    [| apply keeps_ret].
  apply keeps_bind; [apply keeps_adsr_adjust |].
  intros changed. destruct (negb changed); [apply keeps_ret |].
  apply keeps_bind; [apply keeps_adsr_get | intros value].
  apply keeps_bind; [apply keeps__send_param_update | intros _].
  apply keeps_bind; [apply keeps_push | intros _; apply keeps_ret].
Qed.

Lemma keeps__adjust_loop_start (delta : Q) : keeps R (_adjust_loop_start delta).
Proof.
  unfold _adjust_loop_start. apply keeps_get_bind. intros s.
  destruct (LoopParameters.adjust_start _ _) as [[|] lp]; [| apply keeps_ret].
  apply keeps_bind; [apply keeps_modify; intros; apply R_loop_params | intros _].
  apply keeps_bind; [apply keeps__send_loop_update | intros _; apply keeps_ret].
Qed.

Lemma keeps__adjust_loop_end (delta : Q) : keeps R (_adjust_loop_end delta).
Proof.
  unfold _adjust_loop_end. apply keeps_get_bind. intros s.
  destruct (LoopParameters.adjust_end _ _) as [[|] lp]; [| apply keeps_ret].
  apply keeps_bind; [apply keeps_modify; intros; apply R_loop_params | intros _].
  apply keeps_bind; [apply keeps__send_loop_update | intros _; apply keeps_ret].
Qed.

Lemma keeps__handle_loop_keys (key : Z) : keeps R (_handle_loop_keys key).
Proof.
  unfold _handle_loop_keys. apply keeps_get_bind. intros s.
  repeat match goal with
         | |- keeps_at R (if ?b then _ else _) _ => destruct b
         end;
    first [apply keeps__adjust_loop_start | apply keeps__adjust_loop_end
          | apply keeps_ret].
Qed.

Lemma keeps_keyboard_translate (key : Z) : keeps R (keyboard_translate key).
Proof.
  intros s. unfold keeps_at, keyboard_translate.
  destruct (KeyboardNoteMapper.translate _ _). apply R_keyboard_mapper.
Qed.

Lemma keeps__handle_keyboard_note (key : Z) : keeps R (_handle_keyboard_note key).
Proof.
  unfold _handle_keyboard_note.
  apply keeps_bind; [apply keeps_keyboard_translate |].
  intros [[note is_on] |]; [| apply keeps_ret].
  apply keeps_get_bind. intros s.
  apply keeps_at_bind; [| intros _; apply keeps_ret].
  destruct is_on.
  - apply keeps_at__send_note_on, allowed_key_note_on.
  - apply keeps__send_note_off.
Qed.

Lemma keeps_iteration (pending : list MidiInput.Message) (key : Z) :
  keeps R (_poll_midi pending) → keeps R (iteration pending key).
Proof.
  intros Hpoll. unfold iteration.
  apply keeps_bind; [exact Hpoll | intros _].
  apply keeps_bind; [apply keeps_ret | intros _].
  destruct (key =? -1)%Z; [apply keeps_ret |].
  destruct (_ || _).
  { apply keeps_bind; [apply keeps_push | intros _].
    apply keeps_bind; [apply keeps_ret | intros _; apply keeps_ret]. }
  destruct (key =? ord ";")%Z.
  { apply keeps_bind; [apply keeps__panic_all_notes_off | intros _; apply keeps_ret]. }
  apply keeps_bind; [apply keeps__handle_loop_keys | intros [|]; [apply keeps_ret |]].
  apply keeps_bind; [apply keeps__handle_adsr_keys | intros [|]; [apply keeps_ret |]].
  apply keeps_bind; [apply keeps__handle_keyboard_note | intros _; apply keeps_ret].
Qed.

Lemma keeps_loop (inputs : list (list MidiInput.Message * Z)) :
  (∀ pending, keeps R (_poll_midi pending)) → keeps R (loop inputs).
Proof.
  intros Hpoll. induction inputs as [| [pending key] rest IH]; simpl.
  - apply keeps_ret.
  - apply keeps_bind; [apply keeps_iteration, Hpoll |].
    intros [|]; [exact IH | apply keeps_ret].
Qed.

End Keeps.

#[local] Instance unchanged_preorder {B : Type} (proj : SamplerTUI.t → B) :
  PreOrder (unchanged proj).
Proof.
  split.
  - intros s. reflexivity.
  - intros s1 s2 s3 H12 H23. unfold unchanged in *. congruence.
Qed.

(** ** The keyboard toggle and releases *)

Lemma keyboard_mapper_after_panic (s : SamplerTUI.t) :
  keyboard_mapper (snd (_panic_all_notes_off s)) = keyboard_mapper s.
Proof.
  apply (keeps__panic_all_notes_off (unchanged keyboard_mapper) any_message);
    intros; try reflexivity; exact I.
Qed.

Lemma keyboard_mapper_after_note_off (note : Z) (source : string) (s : SamplerTUI.t) :
  keyboard_mapper (snd (_send_note_off note source s)) = keyboard_mapper s.
Proof.
  apply (keeps__send_note_off (unchanged keyboard_mapper) any_message);
    intros; try reflexivity; exact I.
Qed.

Lemma keyboard_mapper_after_note_on (note : Z) (velocity : Q) (source : string)
    (s : SamplerTUI.t) :
  keyboard_mapper (snd (_send_note_on note velocity source s)) = keyboard_mapper s.
Proof.
  apply (keeps_at__send_note_on (unchanged keyboard_mapper) any_message);
    intros; try reflexivity; exact I.
Qed.

Lemma keyboard_mapper_after_poll (pending : list MidiInput.Message) (s : SamplerTUI.t) :
  keyboard_mapper (snd (_poll_midi pending s)) = keyboard_mapper s.
Proof.
  apply (keeps__poll_midi (unchanged keyboard_mapper) any_message);
    intros; try reflexivity; exact I.
Qed.

Lemma keyboard_mapper_after_loop_keys (key : Z) (s : SamplerTUI.t) :
  keyboard_mapper (snd (_handle_loop_keys key s)) = keyboard_mapper s.
Proof.
  apply (keeps__handle_loop_keys (unchanged keyboard_mapper) any_message);
    intros; try reflexivity; exact I.
Qed.

Lemma keyboard_mapper_after_adsr_keys (key : Z) (s : SamplerTUI.t) :
  keyboard_mapper (snd (_handle_adsr_keys key s)) = keyboard_mapper s.
Proof.
  apply (keeps__handle_adsr_keys (unchanged keyboard_mapper) any_message);
    intros; try reflexivity; exact I.
Qed.

(** C9: the toggle states of the keyboard mapper are written by
    [translate] alone: panic, a note-off (from MIDI, the keyboard or
    panic), a note-on, the MIDI poll and the loop and ADSR key handlers leave
    [KeyboardNoteMapper.active] as it was.  So on the default object,
    pressing [z] switches note 60 on, panic releases it, the toggle of 60
    still says on, and the next press of [z] sends a note-off for 60
    although no note is active. *)
Theorem C9_toggle_outlives_release :
  (∀ s, keyboard_mapper (snd (_panic_all_notes_off s)) = keyboard_mapper s)
  ∧ (∀ note source s,
       keyboard_mapper (snd (_send_note_off note source s)) = keyboard_mapper s)
  ∧ (∀ note velocity source s,
       keyboard_mapper (snd (_send_note_on note velocity source s))
       = keyboard_mapper s)
  ∧ (∀ pending s, keyboard_mapper (snd (_poll_midi pending s)) = keyboard_mapper s)
  ∧ (∀ key s, keyboard_mapper (snd (_handle_loop_keys key s)) = keyboard_mapper s)
  ∧ (∀ key s, keyboard_mapper (snd (_handle_adsr_keys key s)) = keyboard_mapper s)
  ∧ (let s1 := snd (iteration [] (ord "z") (default_tui online)) in
     let s2 := snd (iteration [] (ord ";") s1) in
     let s3 := snd (iteration [] (ord "z") s2) in
     last (SimpleUDPClient.sent (client s1))
     = Some (OSC_NOTE_ON, [AStr "plasma"; AInt 60; AFloat 0.6], None)
     ∧ VoiceTracker.active_notes (voice_tracker s1) = [60%Z]
     ∧ VoiceTracker.active_notes (voice_tracker s2) = []
     ∧ KeyboardNoteMapper.active (keyboard_mapper s2) !! 60%Z = Some true
     ∧ last (SimpleUDPClient.sent (client s3))
       = Some (OSC_NOTE_OFF, [AStr "plasma"; AInt 60], None)).
Proof.
  split; [exact keyboard_mapper_after_panic |].
  split; [exact keyboard_mapper_after_note_off |].
  split; [exact keyboard_mapper_after_note_on |].
  split; [exact keyboard_mapper_after_poll |].
  split; [exact keyboard_mapper_after_loop_keys |].
  split; [exact keyboard_mapper_after_adsr_keys |].
  vm_compute. repeat split; reflexivity.
Qed.

(** ** The default velocity *)

#[local] Instance sends_default_velocity_preorder (v : Q) (k : string) :
  PreOrder (sends_default_velocity v k).
Proof.
  split.
  - intros s Hv Hk. split; [exact Hv |]. split; [exact Hk |].
    exists []. rewrite app_nil_r. split; [reflexivity | constructor].
  - intros s1 s2 s3 H12 H23 Hv Hk.
    destruct (H12 Hv Hk) as (Hv2 & Hk2 & new1 & E1 & F1).
    destruct (H23 Hv2 Hk2) as (Hv3 & Hk3 & new2 & E2 & F2).
    split; [exact Hv3 |]. split; [exact Hk3 |].
    exists (new1 ++ new2). rewrite E2, E1, app_assoc.
    split; [reflexivity | apply Forall_app; split; assumption].
Qed.

Lemma sends_default_velocity_silent (v : Q) (k : string) (s s' : SamplerTUI.t) :
  default_velocity s' = default_velocity s →
  sample_key s' = sample_key s →
  client s' = client s →
  sends_default_velocity v k s s'.
Proof.
  intros Ev Ek Ec Hv Hk. rewrite Ev, Ek, Ec.
  split; [exact Hv |]. split; [exact Hk |].
  exists []. rewrite app_nil_r. split; [reflexivity | constructor].
Qed.

Lemma sends_default_velocity_send (v : Q) (k : string) (s : SamplerTUI.t)
    (address : string) (payload : list Arg) (outcome : option string) :
  message_with_default_velocity v k s address payload →
  sends_default_velocity v k s
    (set_client
       (SimpleUDPClient.mk (SimpleUDPClient.network (client s))
          (SimpleUDPClient.sent (client s) ++ [(address, payload, outcome)]))
       s).
Proof.
  intros Ha Hv Hk. simpl. split; [exact Hv |]. split; [exact Hk |].
  exists [(address, payload, outcome)]. split; [reflexivity |].
  constructor; [| constructor]. exact (Ha Hv Hk).
Qed.

Lemma iteration_sends_default_velocity (v : Q) (k : string) (key : Z) :
  keeps (sends_default_velocity v k) (iteration [] key).
Proof.
  apply (keeps_iteration (sends_default_velocity v k)
           (message_with_default_velocity v k)).
  - intros. apply sends_default_velocity_silent; reflexivity.
  - intros. apply sends_default_velocity_send. assumption.
  - intros. apply sends_default_velocity_silent; reflexivity.
  - intros. apply sends_default_velocity_silent; reflexivity.
  - intros. apply sends_default_velocity_silent; reflexivity.
  - intros. apply sends_default_velocity_silent; reflexivity.
  - intros s note _ _ H. discriminate H.
  - intros s name value _ _ H. discriminate H.
  - intros s _ _ H. discriminate H.
  - intros s note Hv Hk _. exists note. simpl. rewrite Hv, Hk. reflexivity.
  - apply (keeps__poll_midi_nil (sends_default_velocity v k)).
Qed.

Lemma keyboard_note_sends_default_velocity (v : Q) (k : string) (key : Z) :
  keeps (sends_default_velocity v k) (_handle_keyboard_note key).
Proof.
  apply (keeps__handle_keyboard_note (sends_default_velocity v k)
           (message_with_default_velocity v k)).
  - intros. apply sends_default_velocity_silent; reflexivity.
  - intros. apply sends_default_velocity_send. assumption.
  - intros. apply sends_default_velocity_silent; reflexivity.
  - intros. apply sends_default_velocity_silent; reflexivity.
  - intros s note _ _ H. discriminate H.
  - intros s note Hv Hk _. exists note. simpl. rewrite Hv, Hk. reflexivity.
Qed.

Lemma velocity_and_key_after_loop (inputs : list (list MidiInput.Message * Z))
    (s : SamplerTUI.t) :
  velocity_and_key (snd (loop inputs s)) = velocity_and_key s.
Proof.
  apply (keeps_loop (unchanged velocity_and_key) any_message);
    try (intros; try reflexivity; exact I).
  intros pending. apply (keeps__poll_midi (unchanged velocity_and_key) any_message);
    intros; try reflexivity; exact I.
Qed.

Lemma velocity_and_key_after_poll (pending : list MidiInput.Message)
    (s : SamplerTUI.t) :
  velocity_and_key (snd (_poll_midi pending s)) = velocity_and_key s.
Proof.
  apply (keeps__poll_midi (unchanged velocity_and_key) any_message);
    intros; try reflexivity; exact I.
Qed.

Lemma velocity_and_key_after_init (client : SimpleUDPClient.t) (clock : Time.t)
    (key : string) (voice_limit : Z) (v : Q) (adsr : ADSR.t)
    (loop_params : LoopParameters.t) (midi : option MidiInput.t) :
  velocity_and_key
    (snd (__init__ client clock key voice_limit v adsr loop_params midi))
  = (py_max 0.0 (py_min 1.0 v), key).
Proof.
  unfold __init__.
  match goal with
  | |- velocity_and_key (snd (?m ?s)) = _ =>
    change (unchanged velocity_and_key s (snd (m s)))
  end.
  apply (keeps_bind (unchanged velocity_and_key)).
  - apply (keeps__send_initial_params (unchanged velocity_and_key) any_message);
      intros; try reflexivity; exact I.
  - intros _.
    apply (keeps__send_loop_update (unchanged velocity_and_key) any_message);
      intros; try reflexivity; exact I.
Qed.

(** C10: whatever default velocity [v] is configured, the constructor
    stores [max(0.0, min(1.0, v))], a value in [[0, 1]]; no pass of the
    loop changes it; and every note-on message that a key press sends,
    in the state a pass of the loop handles its key in, carries that
    stored value as its velocity. *)
Theorem C10_keyboard_velocity_is_clamped
    (client0 : SimpleUDPClient.t) (clock0 : Time.t) (key0 : string)
    (voice_limit0 : Z) (v : Q) (adsr0 : ADSR.t) (loop_params0 : LoopParameters.t)
    (midi0 : option MidiInput.t) :
  let s0 := snd (__init__ client0 clock0 key0 voice_limit0 v adsr0 loop_params0 midi0) in
  default_velocity s0 = py_max 0.0 (py_min 1.0 v)
  ∧ (0 <= default_velocity s0)%Q ∧ (default_velocity s0 <= 1)%Q
  ∧ ∀ (inputs : list (list MidiInput.Message * Z)) (pending : list MidiInput.Message)
      (key : Z),
      let s := snd (loop inputs s0) in
      let s' := snd (_poll_midi pending s) in
      default_velocity s = default_velocity s0
      ∧ default_velocity s' = default_velocity s0
      ∧ (∃ new,
            SimpleUDPClient.sent (client (snd (_handle_keyboard_note key s')))
            = SimpleUDPClient.sent (client s') ++ new
            ∧ Forall (note_on_carries (default_velocity s0) key0) new)
      ∧ (∃ new,
            SimpleUDPClient.sent (client (snd (iteration [] key s)))
            = SimpleUDPClient.sent (client s) ++ new
            ∧ Forall (note_on_carries (default_velocity s0) key0) new).
Proof.
  intros s0.
  pose proof (velocity_and_key_after_init client0 clock0 key0 voice_limit0 v adsr0
                loop_params0 midi0) as Hinit.
  fold s0 in Hinit. unfold velocity_and_key in Hinit.
  injection Hinit as Hv Hk.
  split; [exact Hv |]. rewrite Hv.
  destruct (clamp_between 0.0 1.0 v) as [Hlo Hhi]; [lra |].
  split; [lra |]. split; [lra |].
  intros inputs pending key s s'.
  pose proof (velocity_and_key_after_loop inputs s0) as Hloop.
  fold s in Hloop. unfold velocity_and_key in Hloop. injection Hloop as Hv1 Hk1.
  pose proof (velocity_and_key_after_poll pending s) as Hpoll.
  fold s' in Hpoll. unfold velocity_and_key in Hpoll. injection Hpoll as Hv2 Hk2.
  rewrite <- Hv.
  split; [exact Hv1 |]. split; [congruence |]. split.
  - destruct (keyboard_note_sends_default_velocity (default_velocity s0) key0 key s')
      as (_ & _ & new & Hsent & Hall); [congruence | congruence |].
    exists new. split; assumption.
  - destruct (iteration_sends_default_velocity (default_velocity s0) key0 key s)
      as (_ & _ & new & Hsent & Hall); [congruence | congruence |].
    exists new. split; assumption.
Qed.

(** ** A send that fails *)

Lemma getattr_Return_param (a : ADSR.t) (name : string) (v : Q) :
  ADSR.getattr a name = Return v → name ∈ param_names.
Proof.
  unfold ADSR.getattr, param_names.
  repeat match goal with
         | |- context [String.eqb ?x ?y] =>
           destruct (String.eqb_spec x y); [subst; intros _; set_solver |]
         end.
  discriminate.
Qed.

Lemma adjust_true_getattr (a a' : ADSR.t) (name : string) (direction : Z)
    (coarse : bool) :
  ADSR.adjust a name direction coarse = Return (true, a') →
  ∃ v, ADSR.get a' name = Return v.
Proof.
  unfold ADSR.adjust, ADSR.get.
  destruct (ADSR.ranges a !! name); [| discriminate].
  destruct (ADSR.getattr a name) as [current | e] eqn:Hcur; [| discriminate].
  destruct (Qltb _ _); [discriminate |]. intros [= <-].
  eexists. apply getattr_setattr_same. exact (getattr_Return_param _ _ _ Hcur).
Qed.

Ltac run_method :=
  unfold _send_note_on, _send_note_off, _send_param_update, _send_loop_update,
    try_except_OSError, bind, get, modify, ret, send_message,
    SimpleUDPClient.send_message, push, Time.strftime, next_outcome in *;
  simpl in *.

(** C1 (as stated, refuted): with every send failing, the key [t] still
    lowers the attack of the default object from 0.01 to 0.001, and the
    key [d] still moves the loop start from 0 to 0.01 and the revision
    from 0 to 1: after the event the parameter and loop window states are
    not what they were before it. *)
Lemma C1_counterexample :
  let s := default_tui offline in
  next_outcome s = Some "Network is unreachable"
  ∧ fst (iteration [] (ord "t") s) = Return Continue
  ∧ (ADSR.attack (adsr s) == 0.01)%Q
  ∧ (ADSR.attack (adsr (snd (iteration [] (ord "t") s))) == 0.001)%Q
  ∧ fst (iteration [] (ord "d") s) = Return Continue
  ∧ (LoopParameters.start (loop_params s) == 0)%Q
  ∧ (LoopParameters.start (loop_params (snd (iteration [] (ord "d") s))) == 0.01)%Q
  ∧ LoopParameters.revision (loop_params s) = 0%Z
  ∧ LoopParameters.revision (loop_params (snd (iteration [] (ord "d") s))) = 1%Z.
Proof. vm_compute. repeat split; reflexivity. Qed.

(** C1 (amended): when the next send raises a transport error, each of
    the four senders catches it, returns normally, adds the failure line
    with the error text to the log, and leaves the voice tracker, the
    ADSR parameters and the loop window as they were when it was called.
    For a note event (a key press or a MIDI message) that is the state
    before the event.  For a parameter or loop key the adjustment is
    committed before the send and stays committed: the handler returns
    true with the adjusted value in place and the rest untouched. *)
Theorem C1_send_failure_is_caught (s : SamplerTUI.t) (err : string) :
  next_outcome s = Some err →
  (∀ note velocity source,
     let r := _send_note_on note velocity source s in
     fst r = Return tt
     ∧ failure_logged "Failed to send note_on: {err}" err s (snd r)
     ∧ same_local s (snd r))
  ∧ (∀ note source,
       let r := _send_note_off note source s in
       fst r = Return tt
       ∧ failure_logged "Failed to send note_off: {err}" err s (snd r)
       ∧ same_local s (snd r))
  ∧ (∀ param value,
       let r := _send_param_update param value s in
       fst r = Return tt
       ∧ failure_logged "Failed to send param update: {err}" err s (snd r)
       ∧ same_local s (snd r))
  ∧ (∀ reason,
       let r := _send_loop_update reason s in
       fst r = Return tt
       ∧ failure_logged "Failed to update loop: {err}" err s (snd r)
       ∧ same_local s (snd r))
  ∧ (∀ key,
       let r := _handle_keyboard_note key s in
       (∃ handled, fst r = Return handled) ∧ same_local s (snd r))
  ∧ (∀ message,
       let r := _poll_midi [message] s in
       fst r = Return tt ∧ same_local s (snd r))
  ∧ (∀ key name direction coarse a',
       adsr_key_mapping !! key = Some (name, direction, coarse) →
       ADSR.adjust (adsr s) name direction coarse = Return (true, a') →
       let r := _handle_adsr_keys key s in
       fst r = Return true
       ∧ adsr (snd r) = a'
       ∧ voice_tracker (snd r) = voice_tracker s
       ∧ loop_params (snd r) = loop_params s)
  ∧ (∀ delta lp',
       LoopParameters.adjust_start delta (loop_params s) = (true, lp') →
       let r := _adjust_loop_start delta s in
       fst r = Return true
       ∧ loop_params (snd r) = lp'
       ∧ voice_tracker (snd r) = voice_tracker s
       ∧ adsr (snd r) = adsr s)
  ∧ (∀ delta lp',
       LoopParameters.adjust_end delta (loop_params s) = (true, lp') →
       let r := _adjust_loop_end delta s in
       fst r = Return true
       ∧ loop_params (snd r) = lp'
       ∧ voice_tracker (snd r) = voice_tracker s
       ∧ adsr (snd r) = adsr s).
Proof.
  intros Hfail. unfold failure_logged, same_local, now.
  repeat apply conj.
  - intros note velocity source. run_method. rewrite Hfail. simpl. auto.
  - intros note source. run_method. rewrite Hfail. simpl. auto.
  - intros param value. run_method. rewrite Hfail. simpl. auto.
  - intros reason. run_method. rewrite Hfail. simpl. auto.
  - intros key. unfold _handle_keyboard_note, keyboard_translate,
      KeyboardNoteMapper.translate. run_method.
    destruct (KeyboardNoteMapper.KEY_MAP !! key) as [note |]; simpl; [| eauto].
    destruct (negb _); simpl; rewrite Hfail; simpl; eauto.
  - intros message. unfold _poll_midi. run_method.
    destruct (midi s); simpl; [| auto].
    destruct (_ && _); simpl; [run_method; rewrite Hfail; simpl; auto |].
    destruct (_ || _); simpl; [run_method; rewrite Hfail; simpl; auto | auto].
  - intros key name direction coarse a' Hkey Hadj.
    destruct (adjust_true_getattr _ _ _ _ _ Hadj) as [v Hv].
    unfold _handle_adsr_keys, adsr_adjust, adsr_get. rewrite Hkey. run_method.
    rewrite Hadj. simpl. rewrite Hv. simpl. rewrite Hfail. simpl. auto.
  - intros delta lp' Hadj. unfold _adjust_loop_start. run_method.
    rewrite Hadj. simpl. rewrite Hfail. simpl. auto.
  - intros delta lp' Hadj. unfold _adjust_loop_end. run_method.
    rewrite Hadj. simpl. rewrite Hfail. simpl. auto.
Qed.

(** The default object with every send failing: a note-on for 60 and the
    key [t]. *)
Lemma C1_send_failure_is_caught_witness :
  next_outcome (default_tui offline) = Some "Network is unreachable"
  ∧ same_local (default_tui offline)
      (snd (_send_note_on 60 0.6 "KEY" (default_tui offline)))
  ∧ adsr (snd (_handle_adsr_keys (ord "t") (default_tui offline)))
    = ADSR.setattr ADSR.default "attack" 0.001.
Proof.
  assert (next_outcome (default_tui offline) = Some "Network is unreachable")
    as Hfail by (vm_compute; reflexivity).
  destruct (C1_send_failure_is_caught (default_tui offline) _ Hfail)
    as (Hon & _ & _ & _ & _ & _ & Hadsr & _).
  split; [exact Hfail |]. split; [apply Hon |].
  apply (Hadsr (ord "t") "attack" (-1)%Z false); vm_compute; reflexivity.
Defined.

(** ** Panic *)

Lemma _send_note_off_effect (note : Z) (source : string) (s : SamplerTUI.t) :
  let r := _send_note_off note source s in
  fst r = Return tt
  ∧ client (snd r)
    = SimpleUDPClient.mk (SimpleUDPClient.network (client s))
        (SimpleUDPClient.sent (client s)
         ++ [(OSC_NOTE_OFF, [AStr (sample_key s); AInt note], next_outcome s)])
  ∧ sample_key (snd r) = sample_key s
  ∧ voice_tracker (snd r)
    = match next_outcome s with
      | None => VoiceTracker.note_off note (voice_tracker s)
      | Some _ => voice_tracker s
      end.
Proof.
  run_method. destruct (SimpleUDPClient.network _ _); simpl; auto.
Qed.

Lemma panic_loop (notes : list Z) (s : SamplerTUI.t) :
  let r := for_each notes (λ note, _send_note_off note "PANIC") s in
  let network := SimpleUDPClient.network (client s) in
  let base := length (SimpleUDPClient.sent (client s)) in
  fst r = Return tt
  ∧ client (snd r)
    = SimpleUDPClient.mk network
        (SimpleUDPClient.sent (client s)
         ++ note_off_sends (sample_key s) network base notes)
  ∧ sample_key (snd r) = sample_key s
  ∧ VoiceTracker._voices (voice_tracker (snd r))
    = filter (λ k, k ∉ released network base notes)
             (VoiceTracker._voices (voice_tracker s)).
Proof.
  revert s. induction notes as [| note rest IH]; intros s; simpl.
  - split; [reflexivity |]. rewrite app_nil_r.
    split; [destruct (client s); reflexivity |]. split; [reflexivity |].
    symmetry. induction (VoiceTracker._voices (voice_tracker s)) as [| x l IHl];
      [reflexivity |].
    rewrite filter_cons_True by apply not_elem_of_nil. f_equal. exact IHl.
  - destruct (_send_note_off_effect note "PANIC" s) as (Hret & Hcl & Hkey & Hvt).
    unfold bind. destruct (_send_note_off note "PANIC" s) as [o s1].
    simpl in Hret, Hcl, Hkey, Hvt. subst o.
    destruct (IH s1) as (Hret' & Hcl' & Hkey' & Hvt').
    rewrite Hcl in Hcl', Hvt'. simpl in Hcl', Hvt'.
    rewrite length_app in Hcl', Hvt'. simpl in Hcl', Hvt'.
    rewrite Nat.add_1_r in Hcl', Hvt'. rewrite Hkey in Hcl'.
    split; [exact Hret' |].
    split; [rewrite Hcl', <- app_assoc; reflexivity |].
    split; [congruence |].
    rewrite Hvt', Hvt. unfold next_outcome.
    destruct (SimpleUDPClient.network _ _); simpl.
    + reflexivity.
    + rewrite list_filter_filter. apply list_filter_iff.
      intros x. rewrite not_elem_of_cons. tauto.
Qed.

Lemma released_all (network : nat → option string) (base : nat) (notes : list Z) :
  (∀ i, (i < length notes)%nat → network (base + i)%nat = None) →
  released network base notes = notes.
Proof.
  revert base. induction notes as [| note rest IH]; intros base Hall; simpl.
  - reflexivity.
  - pose proof (Hall 0%nat ltac:(simpl; lia)) as H0.
    rewrite Nat.add_0_r in H0. rewrite H0. f_equal. apply IH.
    intros i Hi. replace (S base + i)%nat with (base + S i)%nat by lia.
    apply Hall. simpl. lia.
Qed.

Lemma filter_not_in_self (l : list Z) : filter (λ k, k ∉ l) l = [].
Proof.
  assert (∀ l' : list Z, (∀ x, x ∈ l' → x ∈ l) → filter (λ k, k ∉ l) l' = [])
    as H.
  { induction l' as [| x l' IH]; intros Hsub; [reflexivity |].
    rewrite filter_cons_False.
    - apply IH. intros y Hy. apply Hsub. right. exact Hy.
    - intros Hx. apply Hx, Hsub. left. }
  apply H. auto.
Qed.

Lemma note_off_sends_messages (k : string) (network : nat → option string)
    (base : nat) (notes : list Z) :
  map fst (note_off_sends k network base notes)
  = map (λ note, (OSC_NOTE_OFF, [AStr k; AInt note])) notes.
Proof.
  revert base. induction notes as [| note rest IH]; intros base; simpl;
    [reflexivity | rewrite IH; reflexivity].
Qed.

(** C7 (as stated, refuted): with note 60 active and the note-off of the
    panic failing to leave, the panic returns, and note 60 is still
    tracked: [count] is 1, not 0. *)
Lemma C7_counterexample :
  let s := snd (iteration [] (ord "z") (default_tui flaky)) in
  let r := iteration [] (ord ";") s in
  VoiceTracker.active_notes (voice_tracker s) = [60%Z]
  ∧ fst r = Return Continue
  ∧ VoiceTracker.active_notes (voice_tracker (snd r)) = [60%Z]
  ∧ VoiceTracker.count (voice_tracker (snd r)) = 1%Z.
Proof. vm_compute. repeat split; reflexivity. Qed.

(** C7 (amended): a panic with n active notes calls [send_message] with
    a note-off exactly n times, once per note of the snapshot and in its
    order, whatever each call's fate; it takes out of the tracker the
    notes whose message is delivered and keeps those whose send fails,
    so when all n messages are delivered [count] becomes 0; it then logs
    the number n.  With no active note it sends nothing and logs
    "PANIC: no active notes". *)
Theorem C7_panic_releases_delivered_notes (s : SamplerTUI.t) :
  let notes := VoiceTracker.active_notes (voice_tracker s) in
  let network := SimpleUDPClient.network (client s) in
  let base := length (SimpleUDPClient.sent (client s)) in
  let r := _panic_all_notes_off s in
  fst r = Return tt
  ∧ SimpleUDPClient.sent (client (snd r))
    = SimpleUDPClient.sent (client s)
      ++ note_off_sends (sample_key s) network base notes
  ∧ map fst (note_off_sends (sample_key s) network base notes)
    = map (λ note, (OSC_NOTE_OFF, [AStr (sample_key s); AInt note])) notes
  ∧ VoiceTracker.active_notes (voice_tracker (snd r))
    = filter (λ k, k ∉ released network base notes) notes
  ∧ ((∀ i, (i < length notes)%nat → network (base + i)%nat = None) →
     VoiceTracker.count (voice_tracker (snd r)) = 0%Z)
  ∧ (notes = [] →
     msg_log (snd r)
     = MessageLog.push (now s) (fmt "PANIC: no active notes" []) (msg_log s))
  ∧ (notes ≠ [] →
     ∃ timestamp log,
       msg_log (snd r)
       = MessageLog.push timestamp
           (fmt "PANIC: sent note_off for {len(active)} note(s)"
                [AInt (Z.of_nat (length notes))])
           log).
Proof.
  intros notes network base r.
  pose proof (panic_loop notes s) as Hloop. cbv zeta in Hloop.
  fold network base in Hloop.
  change (VoiceTracker._voices (voice_tracker s)) with notes in Hloop.
  assert (r = match notes with
              | [] => push (fmt "PANIC: no active notes" [])
              | _ =>
                bind (for_each notes (λ note, _send_note_off note "PANIC"))
                  (λ _, push (fmt "PANIC: sent note_off for {len(active)} note(s)"
                                  [AInt (Z.of_nat (length notes))]))
              end s) as Hr by reflexivity.
  assert (VoiceTracker._voices (voice_tracker s) = notes) as Hnotes by reflexivity.
  clearbody r notes. subst r.
  split; [| split; [| split; [apply note_off_sends_messages |]]].
  - destruct notes; [reflexivity |]. unfold bind.
    destruct (for_each _ _ s) as [o s1]. simpl in Hloop.
    destruct Hloop as (-> & _). reflexivity.
  - destruct notes.
    + unfold push, Time.strftime. simpl. rewrite app_nil_r. reflexivity.
    + unfold bind. destruct (for_each _ _ s) as [o s1]. simpl in Hloop.
      destruct Hloop as (-> & Hcl & _).
      unfold push, Time.strftime. simpl. rewrite Hcl. reflexivity.
  - assert (VoiceTracker.active_notes
              (voice_tracker
                 (snd (match notes with
                       | [] => push (fmt "PANIC: no active notes" [])
                       | _ =>
                         bind (for_each notes (λ note, _send_note_off note "PANIC"))
                           (λ _, push (fmt "PANIC: sent note_off for {len(active)} note(s)"
                                           [AInt (Z.of_nat (length notes))]))
                       end s)))
            = filter (λ k, k ∉ released network base notes) notes) as Hvoices.
    { destruct notes.
      - exact Hnotes.
      - unfold bind. destruct (for_each _ _ s) as [o s1]. simpl in Hloop.
        destruct Hloop as (-> & _ & _ & Hvt).
        unfold push, Time.strftime. simpl. exact Hvt. }
    split; [exact Hvoices |]. split; [| split].
    + intros Hall. unfold VoiceTracker.count.
      unfold VoiceTracker.active_notes in Hvoices. rewrite Hvoices.
      rewrite released_all by exact Hall. rewrite filter_not_in_self. reflexivity.
    + intros ->. reflexivity.
    + intros Hne. destruct notes; [congruence |]. unfold bind.
      destruct (for_each _ _ s) as [o s1]. simpl in Hloop.
      destruct Hloop as (-> & _).
      unfold push, Time.strftime. simpl. eauto.
Qed.

(** Panic with the notes 60, 64 and 67 active and every message
    delivered: three note-offs, and no note left. *)
Lemma C7_panic_releases_delivered_notes_witness :
  let s := snd (iteration [] (ord "b")
             (snd (iteration [] (ord "c")
                (snd (iteration [] (ord "z") (default_tui online)))))) in
  VoiceTracker.active_notes (voice_tracker s) = [60; 64; 67]%Z
  ∧ map fst (drop (length (SimpleUDPClient.sent (client s)))
               (SimpleUDPClient.sent (client (snd (_panic_all_notes_off s)))))
    = [(OSC_NOTE_OFF, [AStr "plasma"; AInt 60]);
       (OSC_NOTE_OFF, [AStr "plasma"; AInt 64]);
       (OSC_NOTE_OFF, [AStr "plasma"; AInt 67])]
  ∧ VoiceTracker.count (voice_tracker (snd (_panic_all_notes_off s))) = 0%Z.
Proof.
  intros s.
  destruct (C7_panic_releases_delivered_notes s)
    as (_ & Hsent & Hmsgs & _ & Hcount & _).
  split; [vm_compute; reflexivity |]. split.
  - rewrite Hsent, drop_app_length, Hmsgs. vm_compute. reflexivity.
  - apply Hcount. intros i _. reflexivity.
Defined.

(** ** Key dispatch *)

(** C2 (the code at the failing input): [d] is a loop-window key, but
    with the loop start at its upper limit its adjustment changes
    nothing, [_handle_loop_keys] returns false, and the same key goes on
    to the keyboard-note handler, which switches note 63 on: a note-on
    leaves, the note is tracked, its toggle is set.  The ADSR handler
    does return true for its key when the adjustment changes nothing:
    a second [t] at the lower limit of the attack is consumed. *)
Theorem C2_loop_key_reaches_note_handler :
  let s := narrow_tui in
  let r := iteration [] (ord "d") s in
  loop_binding (ord "d") = true
  ∧ _handle_loop_keys (ord "d") s = (Return false, s)
  ∧ fst r = Return Continue
  ∧ loop_params (snd r) = loop_params s
  ∧ drop (length (SimpleUDPClient.sent (client s))) (SimpleUDPClient.sent (client (snd r)))
    = [(OSC_NOTE_ON, [AStr "plasma"; AInt 63; AFloat 0.6], None)]
  ∧ VoiceTracker.active_notes (voice_tracker s) = []
  ∧ VoiceTracker.active_notes (voice_tracker (snd r)) = [63%Z]
  ∧ KeyboardNoteMapper.active (keyboard_mapper (snd r)) !! 63%Z = Some true
  ∧ (let s1 := snd (iteration [] (ord "t") s) in
     fst (_handle_adsr_keys (ord "t") s1) = Return true
     ∧ adsr (snd (_handle_adsr_keys (ord "t") s1)) = adsr s1
     ∧ SimpleUDPClient.sent (client (snd (_handle_adsr_keys (ord "t") s1)))
       = SimpleUDPClient.sent (client s1)).
Proof. vm_compute. repeat split; reflexivity. Qed.

(** * Further properties of the code *)

(** ** MessageLog: a bounded queue *)

Lemma push_all_within (xs : list (string * Text)) (log : MessageLog.t) :
  (Z.of_nat (length (MessageLog.entries log)) <= MessageLog.max_entries log)%Z →
  let all := MessageLog.entries log ++ xs in
  MessageLog.max_entries (push_all xs log) = MessageLog.max_entries log
  ∧ MessageLog.entries (push_all xs log)
    = drop (length all - Z.to_nat (MessageLog.max_entries log)) all.
Proof.
  revert log. induction xs as [| x rest IH]; intros log Hlen; simpl.
  - split; [reflexivity |]. rewrite app_nil_r.
    replace (length (MessageLog.entries log) - Z.to_nat (MessageLog.max_entries log))%nat
      with 0%nat by lia.
    reflexivity.
  - set (log1 := MessageLog.push x.1 x.2 log).
    assert (MessageLog.max_entries log1 = MessageLog.max_entries log) as Hmax
      by reflexivity.
    assert (MessageLog.entries log1
            = if (MessageLog.max_entries log
                  <? Z.of_nat (length (MessageLog.entries log ++ [x])))%Z
              then drop 1 (MessageLog.entries log ++ [x])
              else MessageLog.entries log ++ [x]) as Hent.
    { unfold log1, MessageLog.push. simpl. destruct x; reflexivity. }
    assert (Z.of_nat (length (MessageLog.entries log1)) <= MessageLog.max_entries log1)%Z
      as Hlen1.
    { rewrite Hmax, Hent. destruct (Z.ltb_spec (MessageLog.max_entries log)
        (Z.of_nat (length (MessageLog.entries log ++ [x])))) as [Hlt | Hge].
      - rewrite length_drop. rewrite length_app in Hlt |- *. simpl in *. lia.
      - exact Hge. }
    destruct (IH log1 Hlen1) as [IHmax IHent].
    unfold push_all in *. fold log1. rewrite IHmax, IHent, Hmax.
    split; [reflexivity |]. rewrite Hent.
    replace (MessageLog.entries log ++ x :: rest)
      with ((MessageLog.entries log ++ [x]) ++ rest)
      by (rewrite <- app_assoc; reflexivity).
    set (full := (MessageLog.entries log ++ [x]) ++ rest).
    destruct (Z.ltb_spec (MessageLog.max_entries log)
        (Z.of_nat (length (MessageLog.entries log ++ [x])))) as [Hlt | Hge];
      [| reflexivity].
    assert (drop 1 (MessageLog.entries log ++ [x]) ++ rest = drop 1 full) as ->.
    { unfold full. symmetry. apply drop_app_le.
      rewrite length_app. simpl. lia. }
    rewrite drop_drop. f_equal. rewrite length_drop.
    assert (Z.to_nat (MessageLog.max_entries log) < length full)%nat.
    { unfold full. rewrite !length_app in *. simpl in *. lia. }
    lia.
Qed.

(** X1: a log that holds at most [max_entries] entries still does after
    any number of pushes, and holds exactly the newest [max_entries] of
    its old entries and the pushed ones, oldest first. *)
Theorem X1_log_keeps_newest (xs : list (string * Text)) (log : MessageLog.t) :
  (Z.of_nat (length (MessageLog.entries log)) <= MessageLog.max_entries log)%Z →
  let all := MessageLog.entries log ++ xs in
  let bound := Z.to_nat (MessageLog.max_entries log) in
  MessageLog.entries (push_all xs log) = drop (length all - bound) all
  ∧ (length (MessageLog.entries (push_all xs log)) <= bound)%nat
  ∧ MessageLog.max_entries (push_all xs log) = MessageLog.max_entries log.
Proof.
  intros Hlen all bound.
  destruct (push_all_within xs log Hlen) as [Hmax Hent].
  fold all bound in Hent. split; [exact Hent |]. split; [| exact Hmax].
  rewrite Hent, length_drop. lia.
Qed.

(** Three pushes on a log of two entries at most: the first is gone. *)
Lemma X1_log_keeps_newest_witness :
  (Z.of_nat (length (MessageLog.entries (MessageLog.mk 2 []))) <= 2)%Z
  ∧ MessageLog.entries
      (push_all [("t1", fmt "a" []); ("t2", fmt "b" []); ("t3", fmt "c" [])]
                (MessageLog.mk 2 []))
    = [("t2", fmt "b" []); ("t3", fmt "c" [])].
Proof.
  split; [simpl; lia |].
  apply (proj1 (X1_log_keeps_newest
                  [("t1", fmt "a" []); ("t2", fmt "b" []); ("t3", fmt "c" [])]
                  (MessageLog.mk 2 []) ltac:(simpl; lia))).
Defined.

Lemma map_reverse {A B : Type} (f : A → B) (l : list A) :
  map f (reverse l) = reverse (map f l).
Proof. unfold reverse. rewrite <- !rev_alt. apply map_rev. Qed.

(** X2: [rendered] shows the log newest first: for a log within its
    bound it is the placeholder line when nothing is held, and otherwise
    the newest [max_entries] of the old and pushed entries, the last
    pushed one on top. *)
Theorem X2_rendered_newest_first (xs : list (string * Text)) (log : MessageLog.t) :
  (Z.of_nat (length (MessageLog.entries log)) <= MessageLog.max_entries log)%Z →
  let all := MessageLog.entries log ++ xs in
  let bound := Z.to_nat (MessageLog.max_entries log) in
  MessageLog.rendered (push_all xs log)
  = match take bound (reverse all) with
    | [] => [MessageLog.Plain "(no events yet)"]
    | newest => map as_line newest
    end.
Proof.
  intros Hlen all bound. unfold MessageLog.rendered.
  destruct (push_all_within xs log Hlen) as [_ Hent].
  fold all bound in Hent. rewrite Hent.
  assert (reverse (drop (length all - bound) all) = take bound (reverse all)) as Hrev.
  { rewrite take_reverse. reflexivity. }
  destruct (drop (length all - bound) all) as [| e es] eqn:Ed.
  - rewrite <- Hrev. reflexivity.
  - rewrite <- Hrev. destruct (reverse (e :: es)) as [| r rs] eqn:Er.
    + apply (f_equal length) in Er. rewrite length_reverse in Er. discriminate.
    + rewrite <- Er. symmetry. apply map_reverse.
Qed.

(** The scenario of the log of two: "c" on top, then "b". *)
Lemma X2_rendered_newest_first_witness :
  (Z.of_nat (length (MessageLog.entries (MessageLog.mk 2 []))) <= 2)%Z
  ∧ MessageLog.rendered
      (push_all [("t1", fmt "a" []); ("t2", fmt "b" []); ("t3", fmt "c" [])]
                (MessageLog.mk 2 []))
    = [MessageLog.Entry "t3" (fmt "c" []); MessageLog.Entry "t2" (fmt "b" [])].
Proof.
  split; [simpl; lia |].
  apply (X2_rendered_newest_first
           [("t1", fmt "a" []); ("t2", fmt "b" []); ("t3", fmt "c" [])]
           (MessageLog.mk 2 []) ltac:(simpl; lia)).
Defined.

(** ** ADSR: direct assignment and unknown names *)

Lemma setattr_setattr (a : ADSR.t) (name : string) (v w : Q) :
  ADSR.setattr (ADSR.setattr a name v) name w = ADSR.setattr a name w.
Proof.
  unfold ADSR.setattr.
  repeat match goal with
         | |- context [String.eqb ?x ?y] => destruct (String.eqb x y); simpl
         end; reflexivity.
Qed.

(** X3: [set] on one of the four parameters, whose range is not empty,
    stores the value clamped to the range: [get] then returns a number
    within the range, equal to the value itself when that lies in the
    range; the other parameters and the ranges are untouched, and setting
    the same value again changes nothing. *)
Theorem X3_set_clamps (a : ADSR.t) (name : string) (value : Q) (rng : ADSRRange.t) :
  name ∈ param_names →
  ADSR.ranges a !! name = Some rng →
  (ADSRRange.minimum rng <= ADSRRange.maximum rng)%Q →
  ∃ (a' : ADSR.t) (v : Q),
    ADSR.set a name value = Return a'
    ∧ ADSR.get a' name = Return v
    ∧ (v == clamp value (ADSRRange.minimum rng) (ADSRRange.maximum rng))%Q
    ∧ (ADSRRange.minimum rng <= v)%Q ∧ (v <= ADSRRange.maximum rng)%Q
    ∧ ((ADSRRange.minimum rng <= value)%Q → (value <= ADSRRange.maximum rng)%Q →
       (v == value)%Q)
    ∧ ADSR.ranges a' = ADSR.ranges a
    ∧ (∀ other, other ≠ name → ADSR.get a' other = ADSR.get a other)
    ∧ ADSR.set a' name value = Return a'.
Proof.
  intros Hname Hrng Hle. unfold ADSR.set, ADSR.get. rewrite Hrng.
  set (v := py_max _ _).
  exists (ADSR.setattr a name v), v.
  split; [reflexivity |]. split; [apply getattr_setattr_same, Hname |].
  split; [apply clamp_py, Hle |].
  destruct (clamp_between (ADSRRange.minimum rng) (ADSRRange.maximum rng) value Hle)
    as [Hlo Hhi].
  split; [exact Hlo |]. split; [exact Hhi |]. split.
  { intros H1 H2. unfold v. rewrite clamp_py by exact Hle. unfold clamp.
    repeat case_Qltb; lra. }
  split; [apply ranges_setattr |].
  split; [intros other Hne; apply getattr_setattr_other, Hne |].
  rewrite ranges_setattr, Hrng. fold v. rewrite setattr_setattr.
  reflexivity.
Qed.

(** The sustain of [ADSR()] set to 1.5 becomes 1.0. *)
Lemma X3_set_clamps_witness :
  ∃ (a' : ADSR.t) (v : Q),
    ADSR.set ADSR.default "sustain" 1.5 = Return a'
    ∧ ADSR.get a' "sustain" = Return v ∧ (v == 1)%Q.
Proof.
  assert ("sustain" ∈ param_names) as Hname by (unfold param_names; set_solver).
  assert (ADSR.ranges ADSR.default !! "sustain" = Some (ADSRRange.mk 0.0 1.0 0.02))
    as Hrng by (vm_compute; reflexivity).
  assert (ADSRRange.minimum (ADSRRange.mk 0.0 1.0 0.02)
          <= ADSRRange.maximum (ADSRRange.mk 0.0 1.0 0.02))%Q
    as Hle by (vm_compute; discriminate).
  destruct (X3_set_clamps ADSR.default "sustain" 1.5 _ Hname Hrng Hle)
    as (a' & v & Hset & Hget & Hv & _).
  exists a', v. split; [exact Hset |]. split; [exact Hget |].
  rewrite Hv. vm_compute. reflexivity.
Defined.

Lemma default_ranges_lookup_None (name : string) :
  name ∉ param_names → ADSR.ranges ADSR.default !! name = None.
Proof.
  unfold param_names. rewrite !not_elem_of_cons. intros (H1 & H2 & H3 & H4 & _).
  change (ADSR.ranges ADSR.default) with ADSR.default_ranges.
  unfold ADSR.default_ranges.
  rewrite !lookup_insert_ne by congruence. apply lookup_empty.
Qed.

(** X4: on [ADSR()] a name that is none of attack, decay, sustain and
    release is refused: [set] and [adjust] raise [KeyError] with that
    name, whatever the value, the direction and the coarse flag. *)
Theorem X4_unknown_parameter_raises (name : string) (value : Q) (direction : Z)
    (coarse : bool) :
  name ∉ param_names →
  ADSR.set ADSR.default name value = Raise (KeyError name)
  ∧ ADSR.adjust ADSR.default name direction coarse = Raise (KeyError name).
Proof.
  intros Hname. unfold ADSR.set, ADSR.adjust.
  rewrite (default_ranges_lookup_None name Hname). split; reflexivity.
Qed.

Lemma X4_unknown_parameter_raises_witness :
  ("volume" ∉ param_names)
  ∧ ADSR.set ADSR.default "volume" 0.5 = Raise (KeyError "volume")
  ∧ ADSR.adjust ADSR.default "volume" 1 true = Raise (KeyError "volume").
Proof.
  assert ("volume" ∉ param_names) as Hname.
  { unfold param_names. rewrite !not_elem_of_cons.
    repeat split; try discriminate. apply not_elem_of_nil. }
  split; [exact Hname |].
  apply (X4_unknown_parameter_raises "volume" 0.5 1%Z true Hname).
Defined.

(** ** LoopParameters: the effect of a delta, and the revision *)

(** Case analysis on a comparison between terms free of comparisons. *)
Ltac case_Qltb_inner :=
  match goal with
  | |- context [Qltb ?x ?y] =>
    lazymatch x with
    | context [Qltb _ _] => fail
    | _ =>
      lazymatch y with
      | context [Qltb _ _] => fail
      | _ =>
        let E := fresh "E" in
        destruct (Qltb x y) eqn:E;
        [apply Qltb_true in E | apply Qltb_false in E]
      end
    end
  end.

Lemma _clamp_toward (x delta : Q) :
  (0 <= x)%Q → (x <= 1)%Q →
  ((0 <= delta)%Q →
   (x <= LoopParameters._clamp (x + delta))%Q
   ∧ (LoopParameters._clamp (x + delta) <= x + delta)%Q)
  ∧ ((delta <= 0)%Q →
     (x + delta <= LoopParameters._clamp (x + delta))%Q
     ∧ (LoopParameters._clamp (x + delta) <= x)%Q).
Proof.
  intros H0 H1. unfold LoopParameters._clamp, py_max, py_min.
  split; intros Hd; repeat case_Qltb_inner; split; lra.
Qed.

(** X5: on a window that satisfies the invariant, an adjustment moves
    its bound in the direction of the delta and by no more than the
    delta (clamping can only shorten the step, down to nothing), and
    leaves the other bound, the minimum span and the two step sizes as
    they were. *)
Theorem X5_adjust_moves_toward_delta (delta : Q) (lp : LoopParameters.t) :
  LoopInvariant lp →
  let after_start := snd (LoopParameters.adjust_start delta lp) in
  let after_end := snd (LoopParameters.adjust_end delta lp) in
  ((0 <= delta)%Q →
   (LoopParameters.start lp <= LoopParameters.start after_start)%Q
   ∧ (LoopParameters.start after_start <= LoopParameters.start lp + delta)%Q
   ∧ (LoopParameters.end_ lp <= LoopParameters.end_ after_end)%Q
   ∧ (LoopParameters.end_ after_end <= LoopParameters.end_ lp + delta)%Q)
  ∧ ((delta <= 0)%Q →
     (LoopParameters.start lp + delta <= LoopParameters.start after_start)%Q
     ∧ (LoopParameters.start after_start <= LoopParameters.start lp)%Q
     ∧ (LoopParameters.end_ lp + delta <= LoopParameters.end_ after_end)%Q
     ∧ (LoopParameters.end_ after_end <= LoopParameters.end_ lp)%Q)
  ∧ LoopParameters.end_ after_start = LoopParameters.end_ lp
  ∧ LoopParameters.start after_end = LoopParameters.start lp
  ∧ LoopParameters.min_span after_start = LoopParameters.min_span lp
  ∧ LoopParameters.min_span after_end = LoopParameters.min_span lp
  ∧ LoopParameters.step after_start = LoopParameters.step lp
  ∧ LoopParameters.step after_end = LoopParameters.step lp
  ∧ LoopParameters.coarse_step after_start = LoopParameters.coarse_step lp
  ∧ LoopParameters.coarse_step after_end = LoopParameters.coarse_step lp.
Proof.
  intros (Hs & Hse & He & Hspan) after_start after_end.
  assert (0 <= LoopParameters.end_ lp)%Q as He0 by lra.
  assert (LoopParameters.start lp <= 1)%Q as Hs1 by lra.
  destruct (_clamp_toward (LoopParameters.start lp) delta Hs Hs1) as [Hsp Hsn].
  destruct (_clamp_toward (LoopParameters.end_ lp) delta He0 He) as [Hep Hen].
  unfold after_start, after_end, LoopParameters.adjust_start,
    LoopParameters.adjust_end.
  set (cs := LoopParameters._clamp (LoopParameters.start lp + delta)) in *.
  set (ce := LoopParameters._clamp (LoopParameters.end_ lp + delta)) in *.
  destruct (Qltb (py_abs _) _); destruct (Qltb (py_abs _) _); simpl;
    (split; [intros Hd; specialize (Hsp Hd); specialize (Hep Hd);
             repeat case_Qltb_inner; repeat split; lra |]);
    (split; [intros Hd; specialize (Hsn Hd); specialize (Hen Hd);
             repeat case_Qltb_inner; repeat split; lra |]);
    repeat split; reflexivity.
Qed.

(** A step up of 0.5 on the full window with minimum span 0.02. *)
Lemma X5_adjust_moves_toward_delta_witness :
  LoopInvariant default_loop
  ∧ (LoopParameters.start default_loop
     <= LoopParameters.start (snd (LoopParameters.adjust_start 0.5 default_loop)))%Q
  ∧ (LoopParameters.start (snd (LoopParameters.adjust_start 0.5 default_loop))
     <= LoopParameters.start default_loop + 0.5)%Q.
Proof.
  assert (LoopInvariant default_loop) as Hinv.
  { unfold default_loop. apply new_invariant; lra. }
  split; [exact Hinv |].
  destruct (X5_adjust_moves_toward_delta 0.5 default_loop Hinv) as (Hup & _).
  destruct Hup as (H1 & H2 & _); [lra |]. split; assumption.
Defined.

Lemma loop_call_revision (c : LoopCall) (lp : LoopParameters.t) :
  LoopParameters.revision (snd (loop_call c lp))
  = (LoopParameters.revision lp + if fst (loop_call c lp) then 1 else 0)%Z.
Proof.
  destruct c; simpl;
    unfold LoopParameters.adjust_start, LoopParameters.adjust_end;
    destruct (Qltb (py_abs _) _); simpl; lia.
Qed.

Lemma loop_run_revision (calls : list LoopCall) (lp : LoopParameters.t) :
  LoopParameters.revision (snd (loop_run calls lp))
  = (LoopParameters.revision lp
     + Z.of_nat (length (filter (λ b : bool, b = true) (fst (loop_run calls lp)))))%Z.
Proof.
  revert lp. induction calls as [| c rest IH]; intros lp; simpl.
  - lia.
  - pose proof (loop_call_revision c lp) as Hc.
    destruct (loop_call c lp) as [changed lp']. specialize (IH lp').
    destruct (loop_run rest lp') as [flags final]. simpl in *.
    rewrite IH, Hc. destruct changed.
    + rewrite filter_cons_True by reflexivity. simpl. lia.
    + rewrite filter_cons_False by discriminate. lia.
Qed.

(** X6: the revision counts the adjustments that took effect: after
    any sequence of [adjust_start] and [adjust_end] calls it is the
    revision before plus the number of calls that returned true, and a
    window from the constructor starts at revision 0; [payload] carries
    the bounds and that count. *)
Theorem X6_revision_counts_successes (calls : list LoopCall) (lp : LoopParameters.t)
    (start end_ min_span step coarse_step : Q) :
  let flags := fst (loop_run calls lp) in
  let final := snd (loop_run calls lp) in
  let successes := Z.of_nat (length (filter (λ b : bool, b = true) flags)) in
  length flags = length calls
  ∧ LoopParameters.revision final = (LoopParameters.revision lp + successes)%Z
  ∧ LoopParameters.payload final
    = [AFloat (LoopParameters.start final); AFloat (LoopParameters.end_ final);
       AFloat (inject_Z (LoopParameters.revision lp + successes))]
  ∧ LoopParameters.revision
      (LoopParameters.new start end_ min_span step coarse_step) = 0%Z.
Proof.
  intros flags final successes.
  pose proof (loop_run_revision calls lp) as Hrev. fold flags final successes in Hrev.
  split; [| split; [exact Hrev | split]].
  - unfold flags. clear. revert lp. induction calls as [| c rest IH]; intros lp; simpl.
    + reflexivity.
    + destruct (loop_call c lp) as [changed lp']. specialize (IH lp').
      destruct (loop_run rest lp'). simpl in *. congruence.
  - unfold LoopParameters.payload. rewrite Hrev. reflexivity.
  - unfold LoopParameters.new, LoopParameters.__post_init__. simpl.
    destruct (Qltb _ _); reflexivity.
Qed.

(** ** VoiceTracker: composition of calls, and the limit *)

Lemma filter_idem (note : Z) (l : list Z) :
  filter (λ k, k ≠ note) (filter (λ k, k ≠ note) l) = filter (λ k, k ≠ note) l.
Proof.
  apply filter_absent. rewrite list_elem_of_filter. intros [Hne _]. congruence.
Qed.

Lemma filter_comm (a b : Z) (l : list Z) :
  filter (λ k, k ≠ a) (filter (λ k, k ≠ b) l)
  = filter (λ k, k ≠ b) (filter (λ k, k ≠ a) l).
Proof.
  rewrite !list_filter_filter. apply list_filter_iff. intros x. tauto.
Qed.

(** X7: calls on the same note absorb each other, and the other notes
    are not disturbed: a [note_off] after a [note_on] of the same note
    leaves what the [note_off] alone leaves, a repeated [note_on] or
    [note_off] is the same as one, [note_off]s of two notes commute, and
    a [note_on] keeps the notes other than its own as they were, in
    their order. *)
Theorem X7_voice_calls_compose (a b : Z) (vt : VoiceTracker.t) :
  VoiceTracker.note_off a (VoiceTracker.note_on a vt) = VoiceTracker.note_off a vt
  ∧ VoiceTracker.note_on a (VoiceTracker.note_on a vt) = VoiceTracker.note_on a vt
  ∧ VoiceTracker.note_off a (VoiceTracker.note_off a vt) = VoiceTracker.note_off a vt
  ∧ VoiceTracker.note_off a (VoiceTracker.note_off b vt)
    = VoiceTracker.note_off b (VoiceTracker.note_off a vt)
  ∧ filter (λ k, k ≠ a) (VoiceTracker.active_notes (VoiceTracker.note_on a vt))
    = filter (λ k, k ≠ a) (VoiceTracker.active_notes vt).
Proof.
  assert (∀ l, filter (λ k, k ≠ a) (filter (λ k, k ≠ a) l ++ [a])
               = filter (λ k, k ≠ a) l) as Hfa.
  { intros l. rewrite filter_app, filter_idem.
    rewrite filter_cons_False by (intros H; apply H; reflexivity).
    rewrite filter_nil. apply app_nil_r. }
  assert (VoiceTracker.limit (VoiceTracker.note_on a vt) = VoiceTracker.limit vt)
    as Hlim by (unfold VoiceTracker.note_on; case_bool_decide; reflexivity).
  repeat split.
  - unfold VoiceTracker.note_off. rewrite Hlim, note_on_voices, Hfa. reflexivity.
  - assert (∀ vt', VoiceTracker.note_on a vt'
                   = VoiceTracker.mk (VoiceTracker.limit vt')
                       (filter (λ k, k ≠ a) (VoiceTracker._voices vt') ++ [a])) as Hon.
    { intros vt'. rewrite <- note_on_voices. unfold VoiceTracker.note_on.
      case_bool_decide; reflexivity. }
    rewrite (Hon (VoiceTracker.note_on a vt)), Hlim, note_on_voices, Hfa.
    symmetry. apply Hon.
  - unfold VoiceTracker.note_off. simpl. rewrite filter_idem. reflexivity.
  - unfold VoiceTracker.note_off. simpl. rewrite filter_comm. reflexivity.
  - unfold VoiceTracker.active_notes. rewrite note_on_voices. apply Hfa.
Qed.

Lemma note_on_fresh_sequence (notes : list Z) (vt : VoiceTracker.t) :
  NoDup (VoiceTracker._voices vt ++ notes) →
  voices_after (map call_note_on notes) vt
  = VoiceTracker.mk (VoiceTracker.limit vt) (VoiceTracker._voices vt ++ notes).
Proof.
  revert vt. induction notes as [| note rest IH]; intros vt Hnd; simpl.
  - rewrite app_nil_r. destruct vt; reflexivity.
  - assert (note ∉ VoiceTracker._voices vt) as Hfresh.
    { apply NoDup_app in Hnd. destruct Hnd as (_ & Hdis & _).
      intros Hin. apply (Hdis note Hin). left. }
    assert (VoiceTracker.note_on note vt
            = VoiceTracker.mk (VoiceTracker.limit vt)
                (VoiceTracker._voices vt ++ [note])) as Hon.
    { unfold VoiceTracker.note_on. rewrite bool_decide_eq_false_2 by exact Hfresh.
      reflexivity. }
    unfold voices_after in *. simpl. rewrite Hon, IH; simpl.
    + rewrite <- app_assoc. reflexivity.
    + rewrite <- app_assoc. exact Hnd.
Qed.

(** X8: the limit is stored and never applied: switching on any number
    of distinct notes on a new tracker tracks them all, in that order,
    and [count] is their number, also when it exceeds the limit. *)
Theorem X8_limit_is_not_enforced (notes : list Z) (limit : Z) :
  NoDup notes →
  let vt := voices_after (map call_note_on notes) (VoiceTracker.__init__ limit) in
  VoiceTracker.active_notes vt = notes
  ∧ VoiceTracker.count vt = Z.of_nat (length notes)
  ∧ VoiceTracker.limit vt = limit.
Proof.
  intros Hnd vt. unfold vt.
  rewrite (note_on_fresh_sequence notes (VoiceTracker.__init__ limit)) by exact Hnd.
  repeat split.
Qed.

(** Three notes on a tracker of limit 2. *)
Lemma X8_limit_is_not_enforced_witness :
  NoDup [60; 64; 67]%Z
  ∧ VoiceTracker.count
      (voices_after (map call_note_on [60; 64; 67]%Z) (VoiceTracker.__init__ 2))
    = 3%Z.
Proof.
  assert (NoDup [60; 64; 67]%Z) as Hnd.
  { repeat constructor; rewrite ?not_elem_of_cons; repeat split;
      try discriminate; apply not_elem_of_nil. }
  split; [exact Hnd |].
  exact (proj1 (proj2 (X8_limit_is_not_enforced [60; 64; 67]%Z 2 Hnd))).
Defined.

(** ** KeyboardNoteMapper: interleaved presses *)

Lemma KEY_MAP_injective (k1 k2 note : Z) :
  KeyboardNoteMapper.KEY_MAP !! k1 = Some note →
  KeyboardNoteMapper.KEY_MAP !! k2 = Some note →
  k1 = k2.
Proof.
  unfold KeyboardNoteMapper.KEY_MAP. intros H1 H2.
  apply elem_of_list_to_map_2 in H1. apply elem_of_list_to_map_2 in H2.
  repeat match goal with
         | H : _ ∈ _ :: _ |- _ => apply elem_of_cons in H; destruct H as [H | H]
         | H : _ ∈ [] |- _ => apply elem_of_nil in H; destruct H
         end;
    simplify_eq; reflexivity.
Qed.

Lemma toggle_after_translate (k key note : Z) (m : KeyboardNoteMapper.t) :
  KeyboardNoteMapper.KEY_MAP !! key = Some note →
  default false
    (KeyboardNoteMapper.active (snd (KeyboardNoteMapper.translate k m)) !! note)
  = xorb (default false (KeyboardNoteMapper.active m !! note))
         (bool_decide (k = key)).
Proof.
  intros Hkey. unfold KeyboardNoteMapper.translate.
  destruct (KeyboardNoteMapper.KEY_MAP !! k) as [n |] eqn:Hk; simpl.
  - destruct (decide (n = note)) as [-> | Hne].
    + rewrite (KEY_MAP_injective k key note Hk Hkey).
      rewrite bool_decide_eq_true_2 by reflexivity.
      rewrite lookup_insert_eq. simpl. destruct (default false _); reflexivity.
    + rewrite lookup_insert_ne by exact Hne.
      rewrite bool_decide_eq_false_2; [destruct (default false _); reflexivity |].
      intros ->. congruence.
  - rewrite bool_decide_eq_false_2; [destruct (default false _); reflexivity |].
    intros ->. congruence.
Qed.

Lemma toggle_after_pressed (keys : list Z) (key note : Z) (m : KeyboardNoteMapper.t) :
  KeyboardNoteMapper.KEY_MAP !! key = Some note →
  default false (KeyboardNoteMapper.active (pressed keys m) !! note)
  = xorb (default false (KeyboardNoteMapper.active m !! note))
         (Nat.odd (presses_of key keys)).
Proof.
  intros Hkey. revert m. induction keys as [| k rest IH]; intros m; simpl.
  - destruct (default false _); reflexivity.
  - unfold pressed in *. simpl. rewrite IH.
    rewrite (toggle_after_translate k key note m Hkey).
    unfold presses_of. case_bool_decide as Hk.
    + rewrite filter_cons_True by exact Hk. simpl length.
      rewrite Nat.odd_succ, <- Nat.negb_odd.
      destruct (default false _), (Nat.odd _); reflexivity.
    + rewrite filter_cons_False by exact Hk.
      destruct (default false _), (Nat.odd _); reflexivity.
Qed.

(** X9: the toggles of different keys do not interfere: on a new
    mapper, after any sequence of key presses, mapped or not, the next
    press of a mapped key yields its note switched on if that key was
    pressed an even number of times before, and switched off if an odd
    number of times. *)
Theorem X9_presses_alternate_per_key (before : list Z) (key note : Z) :
  KeyboardNoteMapper.KEY_MAP !! key = Some note →
  fst (KeyboardNoteMapper.translate key (pressed before KeyboardNoteMapper.__init__))
  = Some (note, Nat.even (presses_of key before)).
Proof.
  intros Hkey.
  pose proof (toggle_after_pressed before key note KeyboardNoteMapper.__init__ Hkey)
    as Hstate.
  unfold KeyboardNoteMapper.translate. rewrite Hkey. simpl. rewrite Hstate.
  simpl. rewrite lookup_empty. simpl. rewrite Nat.negb_odd. reflexivity.
Qed.

(** [z] after [z], [x], [q], [z], [x]: two earlier presses, so on. *)
Lemma X9_presses_alternate_per_key_witness :
  KeyboardNoteMapper.KEY_MAP !! ord "z" = Some 60%Z
  ∧ fst (KeyboardNoteMapper.translate (ord "z")
           (pressed [ord "z"; ord "x"; ord "q"; ord "z"; ord "x"]
                    KeyboardNoteMapper.__init__))
    = Some (60%Z, true).
Proof.
  assert (KeyboardNoteMapper.KEY_MAP !! ord "z" = Some 60%Z) as Hkey
    by (vm_compute; reflexivity).
  split; [exact Hkey |].
  apply (X9_presses_alternate_per_key
           [ord "z"; ord "x"; ord "q"; ord "z"; ord "x"] (ord "z") 60%Z Hkey).
Defined.

(** ** MidiInput: resolving a port name *)

Lemma prefix_refl (s : string) : String.prefix s s = true.
Proof.
  induction s as [| c s IH]; simpl; [reflexivity |].
  destruct (Ascii.ascii_dec c c); [exact IH | congruence].
Qed.

Lemma contains_refl (s : string) : MidiInput.contains s s = true.
Proof. destruct s; cbn [MidiInput.contains]; rewrite prefix_refl; reflexivity. Qed.

Lemma find_elem_of {A : Type} (f : A → bool) (l : list A) (x : A) :
  List.find f l = Some x → x ∈ l ∧ f x = true.
Proof.
  intros H. apply find_some in H. rewrite list_elem_of_In. exact H.
Qed.

Lemma find_is_Some {A : Type} (f : A → bool) (l : list A) (x : A) :
  x ∈ l → f x = true → ∃ y, List.find f l = Some y.
Proof.
  intros Hin Hf. destruct (List.find f l) as [y |] eqn:E; [eauto |].
  apply list_elem_of_In in Hin.
  pose proof (find_none f l E x Hin) as Hx. congruence.
Qed.

Lemma first_result_Some {A B : Type} (body : A → option B) (xs : list A) (y : B) :
  MidiInput.first_result body xs = Some y → ∃ x, x ∈ xs ∧ body x = Some y.
Proof.
  induction xs as [| x rest IH]; simpl; [discriminate |].
  destruct (body x) as [y' |] eqn:E.
  - intros [= ->]. exists x. split; [left | exact E].
  - intros H. destruct (IH H) as (x' & Hin & Hx'). exists x'.
    split; [right; exact Hin | exact Hx'].
Qed.

(** X10: whatever is requested, a resolved name is one of the available
    ports, and with no port available nothing resolves, "auto"
    included. *)
Theorem X10_resolved_port_is_available (lower : string → string)
    (requested : string) (names : list string) (name : string) :
  (MidiInput._resolve_port_name lower requested names = Some name → name ∈ names)
  ∧ MidiInput._resolve_port_name lower requested [] = None.
Proof.
  split.
  - unfold MidiInput._resolve_port_name.
    destruct (String.eqb (lower requested) "auto").
    + destruct (MidiInput.first_result _ _) as [found |] eqn:E.
      * intros [= <-]. apply first_result_Some in E.
        destruct E as (pattern & _ & Hfind). apply find_elem_of in Hfind.
        exact (proj1 Hfind).
      * destruct names as [| n rest]; simpl; [discriminate |].
        intros [= <-]. left.
    + case_bool_decide as Hin; [intros [= <-]; exact Hin |].
      destruct (List.find _ names) as [found |] eqn:E.
      * intros [= <-]. exact (proj1 (find_elem_of _ _ _ E)).
      * intros H. exact (proj1 (find_elem_of _ _ _ H)).
  - unfold MidiInput._resolve_port_name. simpl.
    destruct (String.eqb (lower requested) "auto"); reflexivity.
Qed.

Lemma X10_resolved_port_is_available_witness :
  MidiInput._resolve_port_name str_lower "MINILAB"
    ["Midi Through Port-0"; "Arturia MiniLab mkII MIDI 1"]
  = Some "Arturia MiniLab mkII MIDI 1"
  ∧ "Arturia MiniLab mkII MIDI 1"
    ∈ ["Midi Through Port-0"; "Arturia MiniLab mkII MIDI 1"].
Proof.
  assert (MidiInput._resolve_port_name str_lower "MINILAB"
            ["Midi Through Port-0"; "Arturia MiniLab mkII MIDI 1"]
          = Some "Arturia MiniLab mkII MIDI 1") as H by (vm_compute; reflexivity).
  split; [exact H |].
  exact (proj1 (X10_resolved_port_is_available str_lower "MINILAB" _ _) H).
Defined.

(** X11: a request that lower-cases to "auto" resolves whenever a port is
    available.  A port that contains the first, most specific pattern is
    chosen before every port that does not, wherever it stands in the
    list; and when no port contains any of the patterns the first port
    is taken. *)
Theorem X11_auto_resolution (lower : string → string) (requested : string)
    (names : list string) :
  lower requested = "auto" →
  (names ≠ [] → is_Some (MidiInput._resolve_port_name lower requested names))
  ∧ (∀ pattern rest,
       MidiInput.DEFAULT_MIDI_PATTERNS = pattern :: rest →
       (∃ name, name ∈ names ∧ matches lower pattern name = true) →
       MidiInput._resolve_port_name lower requested names
       = List.find (λ name, matches lower pattern name) names)
  ∧ ((∀ pattern name,
        pattern ∈ MidiInput.DEFAULT_MIDI_PATTERNS → name ∈ names →
        matches lower pattern name = false) →
     MidiInput._resolve_port_name lower requested names = head names).
Proof.
  intros Hauto. unfold MidiInput._resolve_port_name. rewrite Hauto. simpl String.eqb.
  cbv iota. split; [| split].
  - intros Hne. destruct (MidiInput.first_result _ _); [eauto |].
    destruct names; [congruence | simpl; eauto].
  - intros pattern rest Hpat (name & Hin & Hm). rewrite Hpat. simpl.
    destruct (find_is_Some (λ n, matches lower pattern n) names name Hin Hm)
      as [found Hfound].
    unfold matches in *. rewrite Hfound. reflexivity.
  - intros Hnone.
    destruct (MidiInput.first_result _ _) as [found |] eqn:E; [| reflexivity].
    apply first_result_Some in E. destruct E as (pattern & Hpat & Hfind).
    apply find_elem_of in Hfind. destruct Hfind as [Hin Hm].
    specialize (Hnone pattern found Hpat Hin). unfold matches in Hnone. congruence.
Qed.

(** "Auto" among three ports: the MiniLab is second in the list and is
    the one chosen. *)
Lemma X11_auto_resolution_witness :
  str_lower "Auto" = "auto"
  ∧ MidiInput._resolve_port_name str_lower "Auto"
      ["Midi Through:Midi Through Port-0 14:0";
       "Arturia MiniLab mkII:Arturia MiniLab mkII MIDI 1 20:0";
       "nanoKEY2:nanoKEY2 MIDI 1 24:0"]
    = Some "Arturia MiniLab mkII:Arturia MiniLab mkII MIDI 1 20:0"
  ∧ is_Some (MidiInput._resolve_port_name str_lower "Auto"
               ["nanoKEY2:nanoKEY2 MIDI 1 24:0"]).
Proof.
  assert (str_lower "Auto" = "auto") as Hauto by reflexivity.
  split; [exact Hauto |]. split.
  - rewrite (proj1 (proj2 (X11_auto_resolution str_lower "Auto" _ Hauto))
               _ _ eq_refl).
    + vm_compute. reflexivity.
    + exists "Arturia MiniLab mkII:Arturia MiniLab mkII MIDI 1 20:0".
      split; [right; left | vm_compute; reflexivity].
  - apply (proj1 (X11_auto_resolution str_lower "Auto" _ Hauto)).
    discriminate.
Defined.

(** X12: for a request other than "auto": a port of exactly the
    requested name is chosen; otherwise a port whose name equals the
    request letter case apart is chosen before any port that merely
    contains it; and the request resolves exactly when some port name
    contains it, letter case apart. *)
Theorem X12_named_resolution (lower : string → string) (requested : string)
    (names : list string) :
  lower requested ≠ "auto" →
  (requested ∈ names →
   MidiInput._resolve_port_name lower requested names = Some requested)
  ∧ ((∃ name, name ∈ names ∧ lower name = lower requested) →
     ∃ found, MidiInput._resolve_port_name lower requested names = Some found
              ∧ lower found = lower requested)
  ∧ (is_Some (MidiInput._resolve_port_name lower requested names)
     ↔ ∃ name, name ∈ names ∧ matches lower requested name = true).
Proof.
  intros Hauto. unfold MidiInput._resolve_port_name.
  assert (String.eqb (lower requested) "auto" = false) as ->
    by (apply String.eqb_neq, Hauto).
  split; [| split].
  - intros Hin. rewrite bool_decide_eq_true_2 by exact Hin. reflexivity.
  - intros (name & Hin & Hname). case_bool_decide as Hreq; [eauto |].
    destruct (find_is_Some (λ n, String.eqb (lower n) (lower requested)) names name
                Hin ltac:(apply String.eqb_eq, Hname)) as [found Hfound].
    rewrite Hfound. exists found. split; [reflexivity |].
    apply find_elem_of in Hfound. apply String.eqb_eq. exact (proj2 Hfound).
  - unfold matches. split.
    + case_bool_decide as Hreq.
      * intros _. exists requested. split; [exact Hreq | apply contains_refl].
      * destruct (List.find _ names) as [found |] eqn:E.
        -- intros _. apply find_elem_of in E. destruct E as [Hin Heq].
           exists found. split; [exact Hin |]. apply String.eqb_eq in Heq.
           rewrite Heq. apply contains_refl.
        -- intros [found Hfound]. apply find_elem_of in Hfound. eauto.
    + intros (name & Hin & Hm). case_bool_decide as Hreq; [eauto |].
      destruct (List.find _ names) as [found |] eqn:E; [eauto |].
      destruct (find_is_Some
                  (λ n, MidiInput.contains (lower requested) (lower n)) names name
                  Hin Hm) as [found Hfound].
      rewrite Hfound. eauto.
Qed.

(** "minilab" among two ports that both contain it: the one named so,
    letter case apart, is chosen although it comes second. *)
Lemma X12_named_resolution_witness :
  str_lower "minilab" ≠ "auto"
  ∧ ∃ found,
      MidiInput._resolve_port_name str_lower "minilab"
        ["Arturia MiniLab mkII MIDI 1"; "MiniLab"] = Some found
      ∧ str_lower found = str_lower "minilab".
Proof.
  assert (str_lower "minilab" ≠ "auto") as Hauto by discriminate.
  split; [exact Hauto |].
  apply (proj1 (proj2 (X12_named_resolution str_lower "minilab"
                         ["Arturia MiniLab mkII MIDI 1"; "MiniLab"] Hauto))).
  exists "MiniLab". split; [| reflexivity]. right. left.
Defined.

(** ** SamplerTUI.run: cleanup, quit, keys without a binding *)

Lemma midi_after_loop (inputs : list (list MidiInput.Message * Z)) (s : SamplerTUI.t) :
  midi (snd (loop inputs s)) = midi s.
Proof.
  apply (keeps_loop (unchanged midi) any_message);
    try (intros; try reflexivity; exact I).
  intros pending. apply (keeps__poll_midi (unchanged midi) any_message);
    intros; try reflexivity; exact I.
Qed.

(** X13: [run] closes the MIDI port on every way out: whatever the
    inputs, whether the loop ends by the quit key, by an exception or
    with the inputs, the object is left with its port, if it has one,
    closed, and nothing before the [finally] touches the port.  The
    outcome of [run] is the outcome of the loop. *)
Theorem X13_run_closes_midi (inputs : list (list MidiInput.Message * Z))
    (s : SamplerTUI.t) :
  midi (snd (run inputs s)) = MidiInput.close <$> midi s
  ∧ midi (snd (loop inputs s)) = midi s
  ∧ fst (run inputs s)
    = fst (loop inputs
             (snd (push (fmt "Ready. Use MIDI keyboard or Z-M row for notes. T/Y/U/I adjust ADSR." [])
                        s))).
Proof.
  split; [| split; [apply midi_after_loop |]].
  - unfold run, bind, push, try_finally, modify. simpl.
    match goal with
    | |- context [loop inputs ?s1] =>
      pose proof (midi_after_loop inputs s1) as H;
      destruct (loop inputs s1) as [o s2]
    end.
    simpl in *. rewrite H. reflexivity.
  - unfold run, bind, push, try_finally, modify. simpl.
    match goal with
    | |- context [loop inputs ?s1] => destruct (loop inputs s1) as [o s2]
    end.
    reflexivity.
Qed.

Lemma loop_binding_false (key : Z) :
  bound_key key = false →
  (key =? ord "q")%Z = false ∧ (key =? ord "Q")%Z = false
  ∧ (key =? ord ";")%Z = false
  ∧ (key =? ord "a")%Z = false ∧ (key =? KEY_LEFT)%Z = false
  ∧ (key =? ord "A")%Z = false
  ∧ (key =? ord "d")%Z = false ∧ (key =? KEY_RIGHT)%Z = false
  ∧ (key =? ord "D")%Z = false
  ∧ (key =? ord "j")%Z = false ∧ (key =? KEY_DOWN)%Z = false
  ∧ (key =? ord "J")%Z = false
  ∧ (key =? ord "l")%Z = false ∧ (key =? KEY_UP)%Z = false
  ∧ (key =? ord "L")%Z = false
  ∧ adsr_key_mapping !! key = None
  ∧ KeyboardNoteMapper.KEY_MAP !! key = None.
Proof.
  unfold bound_key. rewrite !orb_false_iff, !bool_decide_eq_false.
  intros [[Hkeys Hadsr] Hnote].
  rewrite !not_elem_of_cons in Hkeys.
  repeat match goal with
         | |- _ ∧ _ => split
         | |- (_ =? _)%Z = false => apply Z.eqb_neq; tauto
         end.
  - destruct (adsr_key_mapping !! key); [exfalso; eauto | reflexivity].
  - destruct (KeyboardNoteMapper.KEY_MAP !! key); [exfalso; eauto | reflexivity].
Qed.

(** X14: a key without a binding is ignored: on a pass with no MIDI
    message, a key code that is none of quit, panic, the loop keys, the
    ADSR keys and the note keys (the "no key" code -1 among them) leaves
    the whole object as it was, sends and logs nothing, and the loop
    goes on. *)
Theorem X14_unbound_key_is_ignored (key : Z) (s : SamplerTUI.t) :
  bound_key key = false →
  iteration [] key s = (Return Continue, s).
Proof.
  intros Hkey.
  destruct (loop_binding_false key Hkey)
    as (Hq & HQ & Hp & Ha & Hl & HA & Hd & Hr & HD & Hj & Hdn & HJ & Hll & Hu & HL
        & Hadsr & Hnote).
  unfold iteration, _poll_midi, _draw, _handle_loop_keys, _handle_adsr_keys,
    _handle_keyboard_note, keyboard_translate, KeyboardNoteMapper.translate,
    bind, get, ret.
  rewrite Hq, HQ, Hp, Ha, Hl, HA, Hd, Hr, HD, Hj, Hdn, HJ, Hll, Hu, HL, Hadsr, Hnote.
  destruct (midi s); simpl; destruct (key =? -1)%Z; simpl;
    try reflexivity; destruct s; reflexivity.
Qed.

(** The key [p], and no key at all. *)
Lemma X14_unbound_key_is_ignored_witness :
  bound_key (ord "p") = false
  ∧ iteration [] (ord "p") (default_tui online)
    = (Return Continue, default_tui online)
  ∧ iteration [] (-1) (default_tui online) = (Return Continue, default_tui online).
Proof.
  assert (bound_key (ord "p") = false) as Hp by (vm_compute; reflexivity).
  assert (bound_key (-1) = false) as Hn by (vm_compute; reflexivity).
  split; [exact Hp |]. split.
  - apply (X14_unbound_key_is_ignored (ord "p") _ Hp).
  - apply (X14_unbound_key_is_ignored (-1)%Z _ Hn).
Defined.

Lemma quit_never_continues (pending : list MidiInput.Message) (key : Z)
    (s : SamplerTUI.t) :
  key = ord "q" ∨ key = ord "Q" →
  fst (iteration pending key s) ≠ Return Continue.
Proof.
  intros Hkey. unfold iteration, _draw, bind, ret, push.
  destruct (_poll_midi pending s) as [[[] | e] s1]; simpl; [| discriminate].
  destruct Hkey as [-> | ->]; simpl; discriminate.
Qed.

(** X15: the quit key ends the loop: whatever comes before it, the
    inputs recorded after a pass whose key is [q] or [Q] are never
    handled. *)
Theorem X15_quit_ends_loop (before after : list (list MidiInput.Message * Z))
    (pending : list MidiInput.Message) (key : Z) (s : SamplerTUI.t) :
  key = ord "q" ∨ key = ord "Q" →
  loop (before ++ (pending, key) :: after) s = loop (before ++ [(pending, key)]) s.
Proof.
  intros Hkey. revert s. induction before as [| [p k] rest IH]; intros s; simpl.
  - unfold bind. pose proof (quit_never_continues pending key s Hkey) as Hq.
    destruct (iteration pending key s) as [[[|] | e] s1]; simpl in *;
      [congruence | reflexivity | reflexivity].
  - unfold bind. destruct (iteration p k s) as [[[|] | e] s1]; simpl;
      [apply IH | reflexivity | reflexivity].
Qed.

(** Quit, then [z]: the note is never played. *)
Lemma X15_quit_ends_loop_witness :
  (ord "q" = ord "q" ∨ ord "q" = ord "Q")
  ∧ loop ([([], ord "t")] ++ ([], ord "q") :: [([], ord "z")]) (default_tui online)
    = loop ([([], ord "t")] ++ [([], ord "q")]) (default_tui online).
Proof.
  split; [left; reflexivity |].
  apply (X15_quit_ends_loop [([], ord "t")] [([], ord "z")] [] (ord "q")).
  left. reflexivity.
Defined.

(** ** Key handlers: one message for each change, none without *)

Lemma set_adsr_same (s : SamplerTUI.t) : set_adsr (adsr s) s = s.
Proof. destruct s; reflexivity. Qed.

(** X16: an ADSR key sends a parameter update exactly when its
    adjustment changes the value.  When [adjust] reports no change the
    key is consumed and the whole object, log and client included, is as
    before; when it reports a change, one [/param] message with the name
    and the new value is handed to the client, the new store is in
    place and the key is consumed; when it raises, the handler raises
    the same with the object as before. *)
Theorem X16_adsr_key_sends_changes_only (key : Z) (name : string) (direction : Z)
    (coarse : bool) (s : SamplerTUI.t) :
  adsr_key_mapping !! key = Some (name, direction, coarse) →
  match ADSR.adjust (adsr s) name direction coarse with
  | Return (false, _) => _handle_adsr_keys key s = (Return true, s)
  | Return (true, a') =>
    ∃ value,
      ADSR.get a' name = Return value
      ∧ fst (_handle_adsr_keys key s) = Return true
      ∧ adsr (snd (_handle_adsr_keys key s)) = a'
      ∧ SimpleUDPClient.sent (client (snd (_handle_adsr_keys key s)))
        = SimpleUDPClient.sent (client s)
          ++ [(OSC_PARAM, [AStr name; AFloat value], next_outcome s)]
  | Raise e => _handle_adsr_keys key s = (Raise e, s)
  end.
Proof.
  intros Hkey. unfold _handle_adsr_keys. rewrite Hkey.
  destruct (ADSR.adjust (adsr s) name direction coarse) as [[[|] a'] | e] eqn:Hadj.
  - destruct (adjust_true_getattr _ _ _ _ _ Hadj) as [value Hvalue].
    exists value. split; [exact Hvalue |].
    unfold adsr_adjust, adsr_get. run_method. rewrite Hadj. simpl. rewrite Hvalue. simpl.
    destruct (SimpleUDPClient.network _ _); simpl; auto.
  - assert (a' = adsr s) as ->.
    { unfold ADSR.adjust in Hadj.
      destruct (ADSR.ranges _ !! _); [| discriminate].
      destruct (ADSR.getattr _ _); [| discriminate].
      destruct (Qltb _ _); congruence. }
    unfold adsr_adjust, bind. rewrite Hadj. simpl. rewrite set_adsr_same. reflexivity.
  - unfold adsr_adjust, bind. rewrite Hadj. reflexivity.
Qed.

(** [t] twice on the default object: the first press sends the attack at
    its minimum, the second finds nothing to change. *)
Lemma X16_adsr_key_sends_changes_only_witness :
  adsr_key_mapping !! ord "t" = Some ("attack", (-1)%Z, false)
  ∧ (let s1 := snd (_handle_adsr_keys (ord "t") (default_tui online)) in
     _handle_adsr_keys (ord "t") s1 = (Return true, s1)).
Proof.
  assert (adsr_key_mapping !! ord "t" = Some ("attack", (-1)%Z, false)) as Hkey
    by (vm_compute; reflexivity).
  split; [exact Hkey |]. intros s1.
  pose proof (X16_adsr_key_sends_changes_only (ord "t") "attack" (-1) false s1 Hkey)
    as H.
  assert (ADSR.adjust (adsr s1) "attack" (-1) false = Return (false, adsr s1)) as Hadj
    by (vm_compute; reflexivity).
  rewrite Hadj in H. exact H.
Defined.

Lemma set_loop_params_same (v : LoopParameters.t) (s : SamplerTUI.t) :
  loop_params (set_loop_params v s) = v.
Proof. reflexivity. Qed.

(** X17: a loop adjustment sends a loop update exactly when it changes
    the window.  Without a change the helper returns false and the whole
    object is as before; with a change it returns true, the new window
    is in place, and one [/loopSampler/loop] message with the new start,
    end and revision is handed to the client. *)
Theorem X17_loop_key_sends_changes_only (delta : Q) (s : SamplerTUI.t) :
  match LoopParameters.adjust_start delta (loop_params s) with
  | (false, _) => _adjust_loop_start delta s = (Return false, s)
  | (true, lp') =>
    fst (_adjust_loop_start delta s) = Return true
    ∧ loop_params (snd (_adjust_loop_start delta s)) = lp'
    ∧ SimpleUDPClient.sent (client (snd (_adjust_loop_start delta s)))
      = SimpleUDPClient.sent (client s)
        ++ [(OSC_LOOP, LoopParameters.payload lp', next_outcome s)]
  end
  ∧ match LoopParameters.adjust_end delta (loop_params s) with
    | (false, _) => _adjust_loop_end delta s = (Return false, s)
    | (true, lp') =>
      fst (_adjust_loop_end delta s) = Return true
      ∧ loop_params (snd (_adjust_loop_end delta s)) = lp'
      ∧ SimpleUDPClient.sent (client (snd (_adjust_loop_end delta s)))
        = SimpleUDPClient.sent (client s)
          ++ [(OSC_LOOP, LoopParameters.payload lp', next_outcome s)]
    end.
Proof.
  split.
  - destruct (LoopParameters.adjust_start delta (loop_params s)) as [[|] lp'] eqn:E;
      unfold _adjust_loop_start; run_method; rewrite E; simpl; [| reflexivity].
    destruct (SimpleUDPClient.network _ _); simpl; auto.
  - destruct (LoopParameters.adjust_end delta (loop_params s)) as [[|] lp'] eqn:E;
      unfold _adjust_loop_end; run_method; rewrite E; simpl; [| reflexivity].
    destruct (SimpleUDPClient.network _ _); simpl; auto.
Qed.

(** ** The MIDI poll *)

(** X18: in the MIDI poll a note-on of velocity 0 is handled exactly as
    a note-off of the same note; a message that is neither a note-on nor
    a note-off, or a note-on of negative velocity, is skipped; and
    without a MIDI port the poll does nothing, whatever is pending. *)
Theorem X18_midi_poll_forms (note velocity : Z) (other : MidiInput.Message)
    (pending : list MidiInput.Message) (s : SamplerTUI.t) :
  _poll_midi [MidiInput.msg "note_on" note 0] s
  = _poll_midi [MidiInput.msg "note_off" note velocity] s
  ∧ (MidiInput.type other ≠ "note_on" → MidiInput.type other ≠ "note_off" →
     _poll_midi [other] s = (Return tt, s))
  ∧ ((velocity < 0)%Z → _poll_midi [MidiInput.msg "note_on" note velocity] s = (Return tt, s))
  ∧ (midi s = None → _poll_midi pending s = (Return tt, s)).
Proof.
  unfold _poll_midi, bind at 1 2 3 4 5, get. split; [| split; [| split]].
  - destruct (midi s); reflexivity.
  - intros Hon Hoff. apply String.eqb_neq in Hon, Hoff.
    destruct (midi s); [| reflexivity]. simpl. rewrite Hon, Hoff. reflexivity.
  - intros Hneg. destruct (midi s); [| reflexivity]. simpl.
    assert ((0 <? velocity)%Z = false) as -> by lia.
    assert ((velocity =? 0)%Z = false) as -> by lia. reflexivity.
  - intros ->. reflexivity.
Qed.

Lemma X18_midi_poll_forms_witness :
  MidiInput.type (MidiInput.msg "control_change" 7 100) ≠ "note_on"
  ∧ MidiInput.type (MidiInput.msg "control_change" 7 100) ≠ "note_off"
  ∧ midi (default_tui online) = None
  ∧ _poll_midi [MidiInput.msg "control_change" 7 100] (default_tui online)
    = (Return tt, default_tui online)
  ∧ _poll_midi [MidiInput.msg "note_on" 60 100] (default_tui online)
    = (Return tt, default_tui online).
Proof.
  assert (MidiInput.type (MidiInput.msg "control_change" 7 100) ≠ "note_on") as H1
    by discriminate.
  assert (MidiInput.type (MidiInput.msg "control_change" 7 100) ≠ "note_off") as H2
    by discriminate.
  assert (midi (default_tui online) = None) as H3 by reflexivity.
  destruct (X18_midi_poll_forms 0 0 (MidiInput.msg "control_change" 7 100)
              [MidiInput.msg "note_on" 60 100] (default_tui online))
    as (_ & Hother & _ & Hnone).
  split; [exact H1 |]. split; [exact H2 |]. split; [exact H3 |].
  split; [exact (Hother H1 H2) | exact (Hnone H3)].
Defined.

(** X19: a MIDI note-on of velocity 1 to 127 is sent with that velocity
    divided by 127, a number above 0 and at most 1, under the sample
    key; the note enters the tracker if the message is delivered and the
    tracker stays as it is if the send fails. *)
Theorem X19_midi_velocity_is_scaled (note velocity : Z) (port : MidiInput.t)
    (s : SamplerTUI.t) :
  midi s = Some port →
  (1 <= velocity)%Z → (velocity <= 127)%Z →
  let r := _poll_midi [MidiInput.msg "note_on" note velocity] s in
  let scaled := (inject_Z velocity / 127.0)%Q in
  fst r = Return tt
  ∧ SimpleUDPClient.sent (client (snd r))
    = SimpleUDPClient.sent (client s)
      ++ [(OSC_NOTE_ON, [AStr (sample_key s); AInt note; AFloat scaled],
           next_outcome s)]
  ∧ (0 < scaled)%Q ∧ (scaled <= 1)%Q
  ∧ voice_tracker (snd r)
    = match next_outcome s with
      | None => VoiceTracker.note_on note (voice_tracker s)
      | Some _ => voice_tracker s
      end.
Proof.
  intros Hmidi Hlo Hhi r scaled.
  assert ((0 <? velocity)%Z = true) as Hpos by lia.
  assert ((0 < scaled)%Q ∧ (scaled <= 1)%Q) as [Hs0 Hs1].
  { unfold scaled. rewrite Zle_Qle in Hlo, Hhi.
    change (inject_Z 1) with 1%Q in Hlo. change (inject_Z 127) with 127%Q in Hhi.
    split.
    - apply Qlt_shift_div_l; lra.
    - apply Qle_shift_div_r; lra. }
  unfold r, _poll_midi. run_method. rewrite Hmidi. simpl. rewrite Hpos. simpl.
  run_method. fold scaled.
  destruct (SimpleUDPClient.network _ _); simpl; auto.
Qed.

Lemma X19_midi_velocity_is_scaled_witness :
  let s := set_midi (Some (MidiInput.mk "MiniLab" false)) (default_tui online) in
  midi s = Some (MidiInput.mk "MiniLab" false)
  ∧ (1 <= 127)%Z ∧ (127 <= 127)%Z
  ∧ VoiceTracker.active_notes
      (voice_tracker (snd (_poll_midi [MidiInput.msg "note_on" 60 127] s)))
    = [60%Z].
Proof.
  intros s.
  assert (midi s = Some (MidiInput.mk "MiniLab" false)) as Hmidi by reflexivity.
  split; [exact Hmidi |]. split; [lia |]. split; [lia |].
  destruct (X19_midi_velocity_is_scaled 60 127 _ s Hmidi ltac:(lia) ltac:(lia))
    as (_ & _ & _ & _ & Hvt).
  rewrite Hvt. vm_compute. reflexivity.
Defined.

(** ** SamplerTUI: methods that cannot fail *)

Lemma adsr_key_mapping_names (key : Z) (name : string) (direction : Z)
    (coarse : bool) :
  adsr_key_mapping !! key = Some (name, direction, coarse) → name ∈ param_names.
Proof.
  unfold adsr_key_mapping, param_names. intros H.
  apply elem_of_list_to_map_2 in H.
  repeat match goal with
         | H : _ ∈ _ :: _ |- _ => apply elem_of_cons in H; destruct H as [H | H]
         | H : _ ∈ [] |- _ => apply elem_of_nil in H; destruct H
         end;
    simplify_eq; set_solver.
Qed.

(** Soundness of the handlers and of the loop, from the soundness of the
    senders and of the single writes. *)
Section Sound.

Context (Inv : SamplerTUI.t → Prop).

Lemma sound_ret {A : Type} (a : A) : sound Inv (ret a).
Proof. intros s H. simpl. eauto. Qed.

Lemma sound_get : sound Inv get.
Proof. intros s H. simpl. eauto. Qed.

Lemma sound_bind {A B : Type} (m : M A) (k : A → M B) :
  sound Inv m → (∀ a, sound Inv (k a)) → sound Inv (bind m k).
Proof.
  intros Hm Hk s H. unfold bind. destruct (Hm s H) as [H1 [a Ha]].
  destruct (m s) as [o s1]. simpl in *. subst o. apply Hk, H1.
Qed.

Lemma sound_for_each {A : Type} (xs : list A) (body : A → M unit) :
  (∀ x, sound Inv (body x)) → sound Inv (for_each xs body).
Proof.
  intros Hb. induction xs as [| x rest IH]; simpl.
  - apply sound_ret.
  - apply sound_bind; [apply Hb | intros _; exact IH].
Qed.

Lemma sound_try_finally {A : Type} (body : M A) (cleanup : M unit) :
  sound Inv body → sound Inv cleanup → sound Inv (try_finally body cleanup).
Proof.
  intros Hb Hc s H. unfold try_finally. destruct (Hb s H) as [H1 [a Ha]].
  destruct (body s) as [o s1]. simpl in *. subst o.
  destruct (Hc s1 H1) as [H2 [u Hu]].
  destruct (cleanup s1) as [o s2]. simpl in *. subst o. eauto.
Qed.

Hypothesis sound_push : ∀ text, sound Inv (push text).
Hypothesis sound__send_note_on :
  ∀ note velocity source, sound Inv (_send_note_on note velocity source).
Hypothesis sound__send_note_off :
  ∀ note source, sound Inv (_send_note_off note source).
Hypothesis sound__send_param_update :
  ∀ param value, sound Inv (_send_param_update param value).
Hypothesis sound__send_loop_update :
  ∀ reason, sound Inv (_send_loop_update reason).
Hypothesis sound_adsr_adjust :
  ∀ name direction coarse,
    name ∈ param_names → sound Inv (adsr_adjust name direction coarse).
Hypothesis sound__adjust_loop_start : ∀ delta, sound Inv (_adjust_loop_start delta).
Hypothesis sound__adjust_loop_end : ∀ delta, sound Inv (_adjust_loop_end delta).
Hypothesis sound_keyboard_translate : ∀ key, sound Inv (keyboard_translate key).
Hypothesis sound_close :
  sound Inv (modify (λ s, set_midi (MidiInput.close <$> midi s) s)).

Lemma sound_adsr_get (name : string) :
  name ∈ param_names → sound Inv (adsr_get name).
Proof.
  intros Hname s H. unfold adsr_get, ADSR.get. simpl. split; [exact H |].
  destruct (getattr_param (adsr s) name Hname) as [v Hv]. eauto.
Qed.

Lemma sound__send_initial_params : sound Inv _send_initial_params.
Proof.
  unfold _send_initial_params. apply sound_bind; [apply sound_get | intros self].
  apply sound_for_each. intros [name value]. apply sound__send_param_update.
Qed.

Lemma sound__panic_all_notes_off : sound Inv _panic_all_notes_off.
Proof.
  unfold _panic_all_notes_off. apply sound_bind; [apply sound_get | intros self].
  destruct (VoiceTracker.active_notes _); [apply sound_push |].
  apply sound_bind; [| intros _; apply sound_push].
  apply sound_for_each. intros x. apply sound__send_note_off.
Qed.

Lemma sound__poll_midi (pending : list MidiInput.Message) :
  sound Inv (_poll_midi pending).
Proof.
  unfold _poll_midi. apply sound_bind; [apply sound_get | intros self].
  destruct (midi self); [| apply sound_ret].
  apply sound_for_each. intros message.
  destruct (_ && _); [apply sound__send_note_on |].
  destruct (_ || _); [apply sound__send_note_off | apply sound_ret].
Qed.

Lemma sound__handle_adsr_keys (key : Z) : sound Inv (_handle_adsr_keys key).
Proof.
  unfold _handle_adsr_keys.
  destruct (adsr_key_mapping !! key) as [[[name direction] coarse] |] eqn:Hkey;
    [| apply sound_ret].
  pose proof (adsr_key_mapping_names key name direction coarse Hkey) as Hname.
  apply sound_bind; [apply sound_adsr_adjust, Hname | intros changed].
  destruct (negb changed); [apply sound_ret |].
  apply sound_bind; [apply sound_adsr_get, Hname | intros value].
  apply sound_bind; [apply sound__send_param_update | intros _].
  apply sound_bind; [apply sound_push | intros _; apply sound_ret].
Qed.

Lemma sound__handle_loop_keys (key : Z) : sound Inv (_handle_loop_keys key).
Proof.
  unfold _handle_loop_keys. apply sound_bind; [apply sound_get | intros self].
  repeat match goal with
         | |- sound _ (if ?b then _ else _) => destruct b
         end;
    first [apply sound__adjust_loop_start | apply sound__adjust_loop_end
          | apply sound_ret].
Qed.

Lemma sound__handle_keyboard_note (key : Z) : sound Inv (_handle_keyboard_note key).
Proof.
  unfold _handle_keyboard_note.
  apply sound_bind; [apply sound_keyboard_translate |].
  intros [[note is_on] |]; [| apply sound_ret].
  apply sound_bind; [apply sound_get | intros self].
  apply sound_bind; [| intros _; apply sound_ret].
  destruct is_on; [apply sound__send_note_on | apply sound__send_note_off].
Qed.

Lemma sound_iteration (pending : list MidiInput.Message) (key : Z) :
  sound Inv (iteration pending key).
Proof.
  unfold iteration, _draw.
  apply sound_bind; [apply sound__poll_midi | intros _].
  apply sound_bind; [apply sound_ret | intros _].
  destruct (key =? -1)%Z; [apply sound_ret |].
  destruct (_ || _).
  { apply sound_bind; [apply sound_push | intros _].
    apply sound_bind; [apply sound_ret | intros _; apply sound_ret]. }
  destruct (key =? ord ";")%Z.
  { apply sound_bind; [apply sound__panic_all_notes_off | intros _; apply sound_ret]. }
  apply sound_bind; [apply sound__handle_loop_keys | intros [|]; [apply sound_ret |]].
  apply sound_bind; [apply sound__handle_adsr_keys | intros [|]; [apply sound_ret |]].
  apply sound_bind; [apply sound__handle_keyboard_note | intros _; apply sound_ret].
Qed.

Lemma sound_loop (inputs : list (list MidiInput.Message * Z)) :
  sound Inv (loop inputs).
Proof.
  induction inputs as [| [pending key] rest IH]; simpl.
  - apply sound_ret.
  - apply sound_bind; [apply sound_iteration |].
    intros [|]; [exact IH | apply sound_ret].
Qed.

Lemma sound_run (inputs : list (list MidiInput.Message * Z)) :
  sound Inv (run inputs).
Proof.
  unfold run. apply sound_bind; [apply sound_push | intros _].
  apply sound_try_finally; [apply sound_loop | apply sound_close].
Qed.

Lemma sound_construction :
  sound Inv (bind _send_initial_params (λ _, _send_loop_update "init")).
Proof.
  apply sound_bind; [apply sound__send_initial_params |].
  intros _. apply sound__send_loop_update.
Qed.

End Sound.

Lemma _adjust_loop_start_unfold (delta : Q) (s : SamplerTUI.t) :
  _adjust_loop_start delta s
  = if fst (LoopParameters.adjust_start delta (loop_params s))
    then bind (_send_loop_update "start") (λ _, ret true)
           (set_loop_params (snd (LoopParameters.adjust_start delta (loop_params s))) s)
    else (Return false, s).
Proof.
  unfold _adjust_loop_start, bind at 1, get.
  destruct (LoopParameters.adjust_start delta (loop_params s)) as [[|] lp];
    reflexivity.
Qed.

Lemma _adjust_loop_end_unfold (delta : Q) (s : SamplerTUI.t) :
  _adjust_loop_end delta s
  = if fst (LoopParameters.adjust_end delta (loop_params s))
    then bind (_send_loop_update "end") (λ _, ret true)
           (set_loop_params (snd (LoopParameters.adjust_end delta (loop_params s))) s)
    else (Return false, s).
Proof.
  unfold _adjust_loop_end, bind at 1, get.
  destruct (LoopParameters.adjust_end delta (loop_params s)) as [[|] lp];
    reflexivity.
Qed.

Lemma sound_adjust_from_writes (Inv : SamplerTUI.t → Prop) :
  (∀ reason, sound Inv (_send_loop_update reason)) →
  (∀ s delta, Inv s →
     Inv (set_loop_params (snd (LoopParameters.adjust_start delta (loop_params s))) s)
     ∧ Inv (set_loop_params (snd (LoopParameters.adjust_end delta (loop_params s))) s)) →
  ∀ delta, sound Inv (_adjust_loop_start delta) ∧ sound Inv (_adjust_loop_end delta).
Proof.
  intros Hsend Hset delta. split; intros s H.
  - rewrite _adjust_loop_start_unfold.
    destruct (fst _); [| split; [exact H | eexists; reflexivity]].
    destruct (Hsend "start" _ (proj1 (Hset s delta H))) as [H1 [[] Hret]].
    unfold bind. destruct (_send_loop_update "start" _) as [o s1].
    simpl in *. subst o. split; [exact H1 | eexists; reflexivity].
  - rewrite _adjust_loop_end_unfold.
    destruct (fst _); [| split; [exact H | eexists; reflexivity]].
    destruct (Hsend "end" _ (proj2 (Hset s delta H))) as [H1 [[] Hret]].
    unfold bind. destruct (_send_loop_update "end" _) as [o s1].
    simpl in *. subst o. split; [exact H1 | eexists; reflexivity].
Qed.


Lemma known_adsr_adjust (name : string) (direction : Z) (coarse : bool) :
  name ∈ param_names → sound adsr_keys_known (adsr_adjust name direction coarse).
Proof.
  intros Hname s H. unfold adsr_adjust, ADSR.adjust.
  destruct (H name Hname) as [rng Hrng]. rewrite Hrng.
  destruct (getattr_param (adsr s) name Hname) as [current Hcur]. rewrite Hcur.
  destruct (Qltb _ _); simpl.
  - split; [| eexists; reflexivity]. destruct s; exact H.
  - split; [| eexists; reflexivity]. unfold adsr_keys_known. simpl. intros n Hn.
    rewrite ranges_setattr. apply H, Hn.
Qed.





Lemma default_keys_known (name : string) :
  name ∈ param_names → is_Some (ADSR.ranges ADSR.default !! name).
Proof.
  unfold param_names. rewrite !elem_of_cons, elem_of_nil.
  intros [-> | [-> | [-> | [-> | []]]]]; vm_compute; eauto.
Qed.



(** ** SamplerTUI: the tracker and the delivered note-ons *)

Lemma well_formed_grows (s s' : SamplerTUI.t) :
  well_formed s →
  adsr s' = adsr s →
  sample_key s' = sample_key s →
  (∀ e, e ∈ SimpleUDPClient.sent (client s) → e ∈ SimpleUDPClient.sent (client s')) →
  (∀ note, note ∈ VoiceTracker._voices (voice_tracker s') →
     note ∈ VoiceTracker._voices (voice_tracker s)
     ∨ ∃ velocity : Q,
         (OSC_NOTE_ON, [AStr (sample_key s); AInt note; AFloat velocity], None)
         ∈ SimpleUDPClient.sent (client s')) →
  well_formed s'.
Proof.
  intros [Hk Hd] Ha Hkey Hsent Hnotes. split.
  - unfold adsr_keys_known. rewrite Ha. exact Hk.
  - intros note Hin. rewrite Hkey.
    destruct (Hnotes note Hin) as [Hold | Hnew]; [| exact Hnew].
    destruct (Hd note Hold) as [velocity Hv]. exists velocity. apply Hsent, Hv.
Qed.

Ltac grows :=
  eapply well_formed_grows; [eassumption | reflexivity | reflexivity | |]; simpl;
  [ intros; rewrite ?elem_of_app; auto
  | intros; rewrite ?elem_of_app; auto ].

Lemma wf_push (text : Text) : sound well_formed (push text).
Proof. intros s H. run_method. split; [grows | eexists; reflexivity]. Qed.

Lemma wf__send_note_on (note : Z) (velocity : Q) (source : string) :
  sound well_formed (_send_note_on note velocity source).
Proof.
  intros s H. run_method.
  destruct (SimpleUDPClient.network _ _); simpl; (split; [| eexists; reflexivity]).
  - grows.
  - eapply well_formed_grows; [exact H | reflexivity | reflexivity | |]; simpl.
    + intros e He. rewrite elem_of_app. auto.
    + intros n Hn. rewrite note_on_voices in Hn.
      rewrite elem_of_app, list_elem_of_filter, list_elem_of_singleton in Hn.
      destruct Hn as [[_ Hn] | ->]; [left; exact Hn |].
      right. exists velocity. rewrite elem_of_app, list_elem_of_singleton. auto.
Qed.

Lemma wf__send_note_off (note : Z) (source : string) :
  sound well_formed (_send_note_off note source).
Proof.
  intros s H. run_method.
  destruct (SimpleUDPClient.network _ _); simpl; (split; [| eexists; reflexivity]).
  - grows.
  - eapply well_formed_grows; [exact H | reflexivity | reflexivity | |]; simpl.
    + intros e He. rewrite elem_of_app. auto.
    + intros n Hn. rewrite list_elem_of_filter in Hn. left. exact (proj2 Hn).
Qed.

Lemma wf__send_param_update (param : string) (value : Q) :
  sound well_formed (_send_param_update param value).
Proof.
  intros s H. run_method.
  destruct (SimpleUDPClient.network _ _); simpl; (split; [grows | eexists; reflexivity]).
Qed.

Lemma wf__send_loop_update (reason : string) :
  sound well_formed (_send_loop_update reason).
Proof.
  intros s H. run_method.
  destruct (SimpleUDPClient.network _ _); simpl; (split; [grows | eexists; reflexivity]).
Qed.

Lemma wf_adsr_adjust (name : string) (direction : Z) (coarse : bool) :
  name ∈ param_names → sound well_formed (adsr_adjust name direction coarse).
Proof.
  intros Hname s [Hk Hd].
  destruct (known_adsr_adjust name direction coarse Hname s Hk) as [Hk' Hret].
  split; [| exact Hret]. split; [exact Hk' |].
  unfold adsr_adjust in *. destruct (ADSR.adjust _ _ _ _) as [[changed a] | e];
    exact Hd.
Qed.

Lemma wf_adjust_loop (delta : Q) :
  sound well_formed (_adjust_loop_start delta)
  ∧ sound well_formed (_adjust_loop_end delta).
Proof.
  apply sound_adjust_from_writes; [apply wf__send_loop_update |].
  intros s d H. split; grows.
Qed.

Lemma wf_loop (inputs : list (list MidiInput.Message * Z)) :
  sound well_formed (loop inputs).
Proof.
  apply sound_loop.
  - apply wf_push.
  - apply wf__send_note_on.
  - apply wf__send_note_off.
  - apply wf__send_param_update.
  - apply wf_adsr_adjust.
  - apply wf_adjust_loop.
  - apply wf_adjust_loop.
  - intros key s H. unfold keyboard_translate.
    destruct (KeyboardNoteMapper.translate _ _). simpl. split; [grows | eexists; reflexivity].
Qed.

Lemma wf_construction :
  sound well_formed (bind _send_initial_params (λ _, _send_loop_update "init")).
Proof.
  apply sound_construction;
    [apply wf__send_param_update | apply wf__send_loop_update].
Qed.

(** X22: the tracker never holds a note the sampler was not told about:
    on an object built by the constructor with a range for each
    parameter, after any sequence of passes of the loop, every tracked
    note has a note-on message under the sample key that was delivered,
    not just attempted. *)
Theorem X22_tracked_notes_were_delivered
    (client0 : SimpleUDPClient.t) (clock0 : Time.t) (key0 : string)
    (voice_limit0 : Z) (v : Q) (adsr0 : ADSR.t) (loop_params0 : LoopParameters.t)
    (midi0 : option MidiInput.t) (inputs : list (list MidiInput.Message * Z))
    (note : Z) :
  (∀ name, name ∈ param_names → is_Some (ADSR.ranges adsr0 !! name)) →
  let s0 := snd (__init__ client0 clock0 key0 voice_limit0 v adsr0 loop_params0 midi0) in
  let s := snd (loop inputs s0) in
  note ∈ VoiceTracker.active_notes (voice_tracker s) →
  ∃ velocity : Q,
    (OSC_NOTE_ON, [AStr key0; AInt note; AFloat velocity], None)
    ∈ SimpleUDPClient.sent (client s).
Proof.
  intros Hranges s0 s Hnote.
  assert (well_formed s0 ∧ sample_key s0 = key0) as [H0 Hkey0].
  { unfold s0, __init__.
    match goal with
    | |- context [bind _send_initial_params _ ?init] =>
      assert (well_formed init) as Hinit;
        [| split; [exact (proj1 (wf_construction init Hinit)) |]]
    end.
    - split; [exact Hranges |]. intros n Hn. simpl in Hn.
      apply elem_of_nil in Hn. contradiction.
    - match goal with
      | |- sample_key (snd (?m ?init)) = _ =>
        change (sample_key init) with key0;
        change (unchanged sample_key init (snd (m init)))
      end.
      apply (keeps_bind (unchanged sample_key)).
      + apply (keeps__send_initial_params (unchanged sample_key) any_message);
          intros; try reflexivity; exact I.
      + intros _.
        apply (keeps__send_loop_update (unchanged sample_key) any_message);
          intros; try reflexivity; exact I. }
  destruct (wf_loop inputs s0 H0) as [[_ Hd] _]. fold s in Hd.
  assert (sample_key s = key0) as Hkey.
  { rewrite <- Hkey0. unfold s.
    apply (keeps_loop (unchanged sample_key) any_message);
      try (intros; try reflexivity; exact I).
    intros pending. apply (keeps__poll_midi (unchanged sample_key) any_message);
      intros; try reflexivity; exact I. }
  rewrite <- Hkey. apply Hd, Hnote.
Qed.

(** The default object after [z] on a network that loses the note-on of
    a later [x]: note 60 is tracked and was delivered; note 62 is not
    tracked. *)
Lemma X22_tracked_notes_were_delivered_witness :
  let s := snd (loop [([], ord "z"); ([], ord "x")] (default_tui flaky)) in
  VoiceTracker.active_notes (voice_tracker s) = [60%Z]
  ∧ ∃ velocity : Q,
      (OSC_NOTE_ON, [AStr "plasma"; AInt 60; AFloat velocity], None)
      ∈ SimpleUDPClient.sent (client s).
Proof.
  intros s.
  assert (VoiceTracker.active_notes (voice_tracker s) = [60%Z]) as Hnotes
    by (vm_compute; reflexivity).
  split; [exact Hnotes |].
  apply (X22_tracked_notes_were_delivered flaky noon "plasma" 8 0.6 ADSR.default
           default_loop None [([], ord "z"); ([], ord "x")] 60%Z).
  - apply default_keys_known.
  - change (60%Z ∈ VoiceTracker.active_notes (voice_tracker s)).
    rewrite Hnotes. left.
Defined.

(** ** SamplerTUI: what the constructor sends *)






(** ** SamplerTUI: bounds kept through a session *)

Ltac bounds_write :=
  let s := fresh "s" in
  let H := fresh "H" in
  intros s H; unfold in_bounds in *; run_method;
  repeat match goal with
         | |- context [SimpleUDPClient.network ?c ?k] =>
           destruct (SimpleUDPClient.network c k); simpl
         end;
  (split; [exact H | eexists; reflexivity]).

Lemma bounds_adsr_adjust (name : string) (direction : Z) (coarse : bool) :
  name ∈ param_names → sound in_bounds (adsr_adjust name direction coarse).
Proof.
  intros Hname s (Hwf & Hin & Hloop). unfold adsr_adjust.
  destruct (adjust_preserves (adsr s) name direction coarse Hname Hwf Hin)
    as (changed & a' & -> & Hwf' & Hin').
  simpl. split; [| eexists; reflexivity].
  unfold in_bounds. simpl. auto.
Qed.

Lemma bounds_adjust_loop (delta : Q) :
  sound in_bounds (_adjust_loop_start delta) ∧ sound in_bounds (_adjust_loop_end delta).
Proof.
  apply sound_adjust_from_writes; [intros; bounds_write |].
  intros s d (Hwf & Hin & Hinv & Hspan). unfold in_bounds. simpl.
  pose proof (min_span_loop_call (call_adjust_start d) (loop_params s)) as Hs.
  pose proof (min_span_loop_call (call_adjust_end d) (loop_params s)) as He.
  simpl in Hs, He. rewrite Hs, He.
  split; (split; [exact Hwf | split; [exact Hin | split; [| exact Hspan]]]).
  - apply adjust_start_invariant; assumption.
  - apply adjust_end_invariant; assumption.
Qed.

Lemma bounds_loop (inputs : list (list MidiInput.Message * Z)) :
  sound in_bounds (loop inputs).
Proof.
  apply sound_loop; try (intros; bounds_write).
  - apply bounds_adsr_adjust.
  - apply bounds_adjust_loop.
  - apply bounds_adjust_loop.
  - intros key s H. unfold keyboard_translate.
    destruct (KeyboardNoteMapper.translate _ _). simpl.
    split; [exact H | eexists; reflexivity].
Qed.

Lemma bounds_construction :
  sound in_bounds (bind _send_initial_params (λ _, _send_loop_update "init")).
Proof. apply sound_construction; intros; bounds_write. Qed.

(** X23: bounds hold through a whole session.  On the object built from
    [ADSR()] and a loop window constructed with a minimum span between 0
    and 1, after any sequence of passes of the loop, with any keys, MIDI
    messages and failed sends, each of the four parameters is within its
    range and the loop window satisfies [0 <= start <= end <= 1]. *)
Theorem X23_session_stays_in_bounds
    (client0 : SimpleUDPClient.t) (clock0 : Time.t) (key0 : string)
    (voice_limit0 : Z) (v : Q) (start end_ min_span step coarse_step : Q)
    (midi0 : option MidiInput.t) (inputs : list (list MidiInput.Message * Z)) :
  (0 <= min_span)%Q → (min_span <= 1)%Q →
  let s0 := snd (__init__ client0 clock0 key0 voice_limit0 v ADSR.default
                   (LoopParameters.new start end_ min_span step coarse_step) midi0) in
  let s := snd (loop inputs s0) in
  adsr_in_range (adsr s) ∧ WindowOrdered (loop_params s).
Proof.
  intros H0 H1 s0 s.
  assert (in_bounds s0) as Hs0.
  { unfold s0, __init__.
    match goal with
    | |- context [bind _send_initial_params _ ?init] =>
      apply (bounds_construction init)
    end.
    unfold in_bounds. simpl.
    split; [apply default_well_formed |]. split; [apply default_in_range |].
    split; [apply new_invariant; assumption |].
    rewrite min_span_new. exact H0. }
  destruct (bounds_loop inputs s0 Hs0) as [(_ & Hin & Hinv & _) _].
  split; [exact Hin | apply ordered_of_invariant, Hinv].
Qed.

(** The default session after the start pushed up twice by the coarse
    step and the attack stepped down. *)
Lemma X23_session_stays_in_bounds_witness :
  (0 <= 0.02)%Q ∧ (0.02 <= 1)%Q
  ∧ WindowOrdered
      (loop_params
         (snd (loop [([], ord "D"); ([], ord "D"); ([], ord "t")] (default_tui online)))).
Proof.
  split; [lra |]. split; [lra |].
  exact (proj2 (X23_session_stays_in_bounds online noon "plasma" 8 0.6
                  0.0 1.0 0.02 0.01 0.05 None
                  [([], ord "D"); ([], ord "D"); ([], ord "t")]
                  ltac:(lra) ltac:(lra))).
Defined.

(** ** SamplerTUI._loop_bar *)

Lemma py_round_between (x : Q) (n : Z) :
  (0 <= x)%Q → (x <= inject_Z n)%Q → (0 <= py_round x <= n)%Z.
Proof.
  intros H0 Hn. unfold py_round.
  pose proof (Qfloor_le x) as Hfl. pose proof (Qlt_floor x) as Hfu.
  assert (0 <= Qfloor x)%Z as Hf0.
  { change 0%Z with (Qfloor (inject_Z 0)). apply Qfloor_resp_le. exact H0. }
  assert (Qfloor x <= n)%Z as Hfn.
  { rewrite <- (Qfloor_Z n). apply Qfloor_resp_le. exact Hn. }
  assert ((0.5 <= x - inject_Z (Qfloor x))%Q → (Qfloor x < n)%Z) as Hup.
  { intros Hr. destruct (Z.eq_dec (Qfloor x) n) as [E | E]; [| lia].
    rewrite E in Hr. lra. }
  destruct (Qltb (x - inject_Z (Qfloor x)) 0.5) eqn:E1;
    [lia | apply Qltb_false in E1; specialize (Hup E1)].
  destruct (Qltb 0.5 _); [lia |]. destruct (Z.even _); lia.
Qed.

Lemma scaled_between (x : Q) (n : Z) :
  (0 <= x)%Q → (x <= 1)%Q → (0 <= n)%Z →
  (0 <= x * inject_Z n)%Q ∧ (x * inject_Z n <= inject_Z n)%Q.
Proof.
  intros H0 H1 Hn. rewrite Zle_Qle in Hn. change (inject_Z 0) with 0%Q in Hn.
  split.
  - apply Qmult_le_0_compat; assumption.
  - rewrite <- (Qmult_1_l (inject_Z n)) at 2.
    apply Qmult_le_compat_r; assumption.
Qed.

Lemma py_setitem_in_range {A : Type} (l : list A) (i : nat) (x : A) :
  (i < length l)%nat → py_setitem l (Z.of_nat i) x = Some (<[i := x]> l).
Proof.
  intros Hi. unfold py_setitem.
  assert ((0 <=? Z.of_nat i)%Z && (Z.of_nat i <? Z.of_nat (length l))%Z = true) as ->
    by (apply andb_true_intro; split; lia).
  rewrite Nat2Z.id. reflexivity.
Qed.

Lemma fill_range (n a : nat) (l : list ascii) :
  (a + n <= length l)%nat →
  ∃ l', foldl (λ acc idx, match acc with
                          | Some l => py_setitem l idx "="%char
                          | None => None
                          end)
              (Some l) (map (λ k, (Z.of_nat a + Z.of_nat k)%Z) (seq 0 n))
        = Some l'
        ∧ length l' = length l
        ∧ ∀ i, l' !! i = if bool_decide (a <= i < a + n)%nat
                         then (λ _, "="%char) <$> l !! i else l !! i.
Proof.
  revert a l. induction n as [| n IH]; intros a l Hlen.
  - exists l. split; [reflexivity |]. split; [reflexivity |].
    intros i. rewrite bool_decide_eq_false_2 by lia. reflexivity.
  - cbn [seq map foldl]. rewrite Z.add_0_r.
    rewrite py_setitem_in_range by lia.
    rewrite <- seq_shift, map_map.
    assert (map (λ k, (Z.of_nat a + Z.of_nat (S k))%Z) (seq 0 n)
            = map (λ k, (Z.of_nat (S a) + Z.of_nat k)%Z) (seq 0 n)) as ->.
    { apply map_ext. intros k. lia. }
    destruct (IH (S a) (<[a := "="%char]> l)) as (l' & Hfold & Hlen' & Hget).
    { rewrite length_insert. lia. }
    exists l'. split; [exact Hfold |]. rewrite length_insert in Hlen'.
    split; [exact Hlen' |]. intros i. rewrite Hget.
    destruct (decide (i = a)) as [-> | Hne].
    + rewrite bool_decide_eq_false_2 by lia.
      rewrite bool_decide_eq_true_2 by lia.
      rewrite list_lookup_insert_eq by lia.
      destruct (lookup_lt_is_Some_2 l a ltac:(lia)) as [c Hc]. rewrite Hc. reflexivity.
    + rewrite list_lookup_insert_ne by congruence.
      destruct (decide (S a <= i < S a + n)%nat).
      * rewrite !bool_decide_eq_true_2 by lia. reflexivity.
      * rewrite !bool_decide_eq_false_2 by lia. reflexivity.
Qed.

Lemma exact_index_between (x : Q) (n : Z) :
  (0 <= x)%Q → (x <= 1)%Q → (0 <= n)%Z → (0 <= exact_index x n <= n)%Z.
Proof.
  intros H0 H1 Hn. destruct (scaled_between x n H0 H1 Hn) as [Ha Hb].
  exact (py_round_between _ n Ha Hb).
Qed.

(** X24: whenever the index of the start, [int(round(start * segments))],
    lies between 0 and [segments = max(20, width) - 2], [_loop_bar]
    raises no [IndexError], whatever the width and the end are: the end
    marker comes out between the start marker and [segments], and the
    bar is an opening bracket, [segments + 1] characters with [|] at the
    two markers, [=] strictly between them and [-] elsewhere, and a
    closing bracket. *)
Theorem X24_loop_bar_is_drawn (to_index : Q → Z → Z) (width : Z)
    (s : SamplerTUI.t) :
  let segments := (Z.max 20 width - 2)%Z in
  (0 <= bar_start to_index width s)%Z →
  (bar_start to_index width s <= segments)%Z →
  (bar_start to_index width s <= bar_end to_index width s)%Z
  ∧ (bar_end to_index width s <= segments)%Z
  ∧ _loop_bar to_index width s
    = Some (String "["
              (string_of_list_ascii
                 (bar_chars (Z.to_nat segments)
                            (Z.to_nat (bar_start to_index width s))
                            (Z.to_nat (bar_end to_index width s)))
               ++ "]")).
Proof.
  intros segments Ha0 Ha1.
  assert (0 <= segments)%Z as Hseg by (unfold segments; lia).
  unfold _loop_bar, bar_end, bar_start in *. fold segments in Ha0, Ha1 |- *.
  set (a := to_index (LoopParameters.start (loop_params s)) segments) in *.
  set (b0 := to_index (LoopParameters.end_ (loop_params s)) segments) in *.
  set (b1 := if (b0 <=? a)%Z then Z.min segments (a + 1) else b0).
  assert ((if (segments <? b1)%Z then segments else b1) = Z.min b1 segments) as ->.
  { destruct (Z.ltb_spec segments b1); lia. }
  set (b := Z.min b1 segments).
  assert (a <= b <= segments)%Z as Hab.
  { unfold b, b1. destruct (Z.leb_spec b0 a); lia. }
  split; [lia |]. split; [lia |].
  set (n := Z.to_nat segments).
  set (na := Z.to_nat a). set (nb := Z.to_nat b).
  assert (Z.to_nat (segments + 1) = S n) as -> by (unfold n; lia).
  assert (py_range a b = map (λ k, (Z.of_nat na + Z.of_nat k)%Z) (seq 0 (nb - na)))
    as ->.
  { unfold py_range. replace (Z.to_nat (b - a)) with (nb - na)%nat by (unfold na, nb; lia).
    apply map_ext. intros k. unfold na. lia. }
  destruct (fill_range (nb - na) na (replicate (S n) "-"%char)) as (l1 & -> & Hlen1 & Hget1).
  { rewrite length_replicate. unfold na, nb, n. lia. }
  rewrite length_replicate in Hlen1.
  replace a with (Z.of_nat na) by (unfold na; lia).
  replace b with (Z.of_nat nb) by (unfold nb; lia).
  rewrite py_setitem_in_range by (rewrite Hlen1; unfold na, n; lia).
  rewrite py_setitem_in_range
    by (rewrite length_insert, Hlen1; unfold nb, n; lia).
  rewrite take_ge by (rewrite !length_insert, Hlen1; lia).
  do 4 f_equal. apply list_eq. intros i. unfold bar_chars.
  rewrite list_lookup_fmap.
  assert (na <= nb <= n)%nat as Hn by (unfold na, nb, n; lia).
  destruct (decide (i < S n)%nat) as [Hi | Hi].
  - rewrite lookup_seq_lt by exact Hi. simpl.
    destruct (decide (i = nb)) as [-> | Hnb].
    { rewrite list_lookup_insert_eq by (rewrite length_insert, Hlen1; lia).
      rewrite bool_decide_eq_true_2 by auto. reflexivity. }
    rewrite list_lookup_insert_ne by congruence.
    destruct (decide (i = na)) as [-> | Hna].
    { rewrite list_lookup_insert_eq by (rewrite Hlen1; lia).
      rewrite bool_decide_eq_true_2 by auto. reflexivity. }
    rewrite list_lookup_insert_ne by congruence.
    rewrite bool_decide_eq_false_2 by tauto.
    rewrite Hget1, lookup_replicate_2 by exact Hi.
    destruct (decide (na < i < nb)%nat).
    + rewrite !bool_decide_eq_true_2 by lia. reflexivity.
    + rewrite !bool_decide_eq_false_2 by lia. reflexivity.
  - rewrite lookup_seq_ge by lia. simpl.
    apply lookup_ge_None. rewrite !length_insert, Hlen1. lia.
Qed.

(** The bar of the upper half of the sample at width 30, the products
    taken without rounding. *)
Lemma X24_loop_bar_is_drawn_witness :
  (0 <= bar_start exact_index 30 narrow_tui)%Z
  ∧ (bar_start exact_index 30 narrow_tui <= 28)%Z
  ∧ _loop_bar exact_index 30 narrow_tui = Some "[--------------|=============|]".
Proof.
  assert (0 <= bar_start exact_index 30 narrow_tui <= 28)%Z as [H0 H1].
  { apply (exact_index_between _ 28); [vm_compute; discriminate .. | lia]. }
  split; [exact H0 |]. split; [exact H1 |].
  rewrite (proj2 (proj2 (X24_loop_bar_is_drawn exact_index 30 narrow_tui H0 H1))).
  vm_compute. reflexivity.
Defined.
